(** * Watch-progress store: a shallow embedding of
      [backend/src/services/storage.service.ts] and of the routes of
      [backend/src/index.ts] that call it.

    The service keeps two JavaScript [Map]s (pending samples and committed
    progress), writes both to two JSON files after every mutation and folds
    the pending samples into the committed table in [processCronJob].

    Modelling choices, all taken from the source:
    - a JS [number] is [NaN], one of the two infinities or a finite value;
      finite values are rationals (every double is one) and the code only
      compares and copies numbers, so no rounding is involved; the two
      zeros are not told apart;
    - a JS [Map] is an insertion-ordered association list with unique keys:
      [processCronJob] iterates the queue in insertion order;
    - the clock, the random generator, the JSON codec, the faults of the
      file system, the number of arguments that the engine lets a call
      take and the framework's check of a number in a request body are an
      environment [Env]; the methods are written in a state-and-exception
      monad over the [World]. *)

From Stdlib Require Import String Ascii List Bool Arith NArith QArith Lia.
Import ListNotations.
Close Scope Q_scope.
Local Open Scope string_scope.
Local Open Scope list_scope.

(** ** JavaScript numbers *)

Module JsNumber.

Inductive number : Type :=
| NaN
| NegInfinity
| Finite (q : Q)
| PosInfinity.

Definition Qlt_bool (x y : Q) : bool := negb (Qle_bool y x).

(** [gt a b] is the JS expression [a > b]. *)
Definition gt (a b : number) : bool :=
  match a, b with
  | NaN, _ | _, NaN => false
  | NegInfinity, _ => false
  | _, PosInfinity => false
  | Finite p, Finite q => Qlt_bool q p
  | Finite _, NegInfinity => true
  | PosInfinity, _ => true
  end.

(** [lt a b] is [a < b], that is [b > a]. *)
Definition lt (a b : number) : bool := gt b a.

(** [Math.max(...xs)]: starts from [-Infinity], answers [NaN] as soon as
    one argument is [NaN], otherwise keeps the greatest argument. *)
Fixpoint Math_max_from (highest : number) (xs : list number) : number :=
  match xs with
  | [] => highest
  | NaN :: _ => NaN
  | x :: rest => Math_max_from (if gt x highest then x else highest) rest
  end.

Definition Math_max (xs : list number) : number :=
  Math_max_from NegInfinity xs.

(** [x || 0] on a number: [0] and [NaN] are falsy. *)
Definition or_zero (x : number) : number :=
  match x with
  | NaN => Finite 0%Q
  | Finite q => if Qeq_bool q 0%Q then Finite 0%Q else Finite q
  | _ => x
  end.

Definition is_finite (x : number) : bool :=
  match x with Finite _ => true | _ => false end.

(** [x >= 0] *)
Definition nonneg (x : number) : bool :=
  match x with
  | Finite q => Qle_bool 0%Q q
  | PosInfinity => true
  | _ => false
  end.

End JsNumber.
Import JsNumber.

(** ** JavaScript [Map] with string keys *)

Module JsMap.

Definition t (V : Type) : Type := list (string * V).

Definition empty {V} : t V := [].

Fixpoint get {V} (m : t V) (k : string) : option V :=
  match m with
  | [] => None
  | (k', v) :: rest => if String.eqb k k' then Some v else get rest k
  end.

(** [set] replaces the value in place when the key is there and appends a
    new entry at the end otherwise. *)
Fixpoint set {V} (m : t V) (k : string) (v : V) : t V :=
  match m with
  | [] => [(k, v)]
  | (k', v') :: rest =>
      if String.eqb k k' then (k', v) :: rest else (k', v') :: set rest k v
  end.

Fixpoint delete {V} (m : t V) (k : string) : t V :=
  match m with
  | [] => []
  | (k', v') :: rest =>
      if String.eqb k k' then rest else (k', v') :: delete rest k
  end.

Definition keys {V} (m : t V) : list string := map fst m.
Definition values {V} (m : t V) : list V := map snd m.
Definition size {V} (m : t V) : nat := length m.

(** [new Map(entries)] *)
Definition of_entries {V} (es : list (string * V)) : t V :=
  fold_left (fun m e => set m (fst e) (snd e)) es empty.

End JsMap.

(** ** Types of [types.ts] *)

Record QueueItem : Type := mkQueueItem {
  qi_id : string;
  qi_videoId : string;
  qi_userId : string;
  qi_progressSeconds : number;
  qi_createdAt : string
}.

(** [videoId] is [None] for JS [undefined]: [processCronJob] destructures the
    split key and passes a missing second segment on as [undefined]. *)
Record ProgressRecord : Type := mkProgressRecord {
  pr_videoId : option string;
  pr_userId : string;
  pr_furthestSeconds : number;
  pr_updatedAt : string
}.

(** The body of [POST /api/progress/queue], the argument of [addToQueue]:
    the three fields of the route's schema. An [id] or a [createdAt] in the
    argument would be overwritten by the ones [addToQueue] makes. *)
Record QueueInput : Type := mkQueueInput {
  in_videoId : string;
  in_userId : string;
  in_progressSeconds : number
}.

(** ** Composite keys *)

(** A template literal prints [undefined] as the word. *)
Definition show (v : option string) : string :=
  match v with Some s => s | None => "undefined" end.

(** [`${userId}-${videoId}`] *)
Definition key_of (userId : string) (videoId : option string) : string :=
  userId ++ "-" ++ show videoId.

Definition isHyphen (c : ascii) : bool := Ascii.eqb c "-"%char.

(** [s.split('-')], as its first segment and the list of the following ones
    (the array is never empty). *)
Fixpoint split (s : string) : string * list string :=
  match s with
  | EmptyString => (EmptyString, [])
  | String c r =>
      let '(h, t) := split r in
      if isHyphen c then (EmptyString, h :: t) else (String c h, t)
  end.

(** [const [userId, videoId] = key.split('-')] *)
Definition destructure (key : string) : string * option string :=
  let '(h, t) := split key in (h, hd_error t).

Fixpoint hasHyphen (s : string) : bool :=
  match s with
  | EmptyString => false
  | String c r => isHyphen c || hasHyphen r
  end.

(** Number of hyphens of a string. *)
Fixpoint hyphens (s : string) : nat :=
  match s with
  | EmptyString => 0
  | String c r => (if isHyphen c then 1 else 0) + hyphens r
  end.

(** Joining the segments with hyphens gives the string back. *)
Fixpoint join (h : string) (t : list string) : string :=
  match t with
  | [] => h
  | x :: t' => h ++ "-" ++ join x t'
  end.

(** ** The world: memory of the service, files, console *)

(** A file of the data directory: missing, there but failing to be read, or
    there with a content. *)
Inductive file : Type :=
| Absent
| Unreadable
| Content (data : string).

Record DataDir : Type := mkDataDir {
  queueFile : file;
  progressFile : file
}.

Inductive logLine : Type :=
| Log (msg : string)
| Error (msg : string) (error : string).

(** [disk = None] when the data directory does not exist. [ticks] counts the
    reads of the clock and of the random generator, [writes] the calls of
    [writeFileSync]. *)
Record World : Type := mkWorld {
  queue : JsMap.t (list QueueItem);
  progress : JsMap.t ProgressRecord;
  disk : option DataDir;
  ticks : nat;
  writes : nat;
  console : list logLine
}.

(** What the program does not decide. The codec fields stand for
    [JSON.stringify(Object.fromEntries(m), null, 2)] and for
    [Object.entries(JSON.parse(data))], [None] when the latter throws.
    [writeFault n = Some f] makes the [n]-th [writeFileSync] throw and leave
    the file as [f]. [argumentLimit] is the greatest number of arguments
    that the engine lets one call take: a call that spreads a longer array
    throws a [RangeError]. [schemaNumber] is the framework's [t.Number()]:
    whether a value of a request body passes as a number, before any
    keyword of the schema is looked at. *)
Record Env : Type := mkEnv {
  dataPath : string;
  Date_now : nat -> string;
  Math_random : nat -> string;
  toISOString : nat -> string;
  stringify_queue : JsMap.t (list QueueItem) -> string;
  stringify_progress : JsMap.t ProgressRecord -> string;
  parse_queue : string -> option (list (string * list QueueItem));
  parse_progress : string -> option (list (string * ProgressRecord));
  mkdirFault : bool;
  writeFault : nat -> option file;
  argumentLimit : N;
  schemaNumber : number -> bool
}.

(** ** State and exception monad *)

Inductive outcome (A : Type) : Type :=
| Returned (a : A)
| Thrown (error : string).
Arguments Returned {A} a.
Arguments Thrown {A} error.

Definition M (A : Type) : Type := World -> outcome A * World.

Definition ret {A} (a : A) : M A := fun w => (Returned a, w).

Definition bind {A B} (m : M A) (k : A -> M B) : M B :=
  fun w =>
    match m w with
    | (Returned a, w') => k a w'
    | (Thrown e, w') => (Thrown e, w')
    end.

Definition throw {A} (e : string) : M A := fun w => (Thrown e, w).

(** [try { body } catch (error) { handler }] *)
Definition try_catch {A} (body : M A) (handler : string -> M A) : M A :=
  fun w =>
    match body w with
    | (Returned a, w') => (Returned a, w')
    | (Thrown e, w') => handler e w'
    end.

Definition gets {A} (f : World -> A) : M A := fun w => (Returned (f w), w).
Definition modify (f : World -> World) : M unit := fun w => (Returned tt, f w).

Declare Scope js_scope.
Delimit Scope js_scope with js.
Notation "x <- m ;; k" := (bind m (fun x => k))
  (at level 61, m at next level, right associativity) : js_scope.
Notation "m ;; k" := (bind m (fun _ => k))
  (at level 61, right associativity) : js_scope.
Local Open Scope js_scope.

Definition when (b : bool) (m : M unit) : M unit := if b then m else ret tt.

(** ** Setters of the world *)

Definition set_queue (q : JsMap.t (list QueueItem)) (w : World) : World :=
  mkWorld q (progress w) (disk w) (ticks w) (writes w) (console w).
Definition set_progress (p : JsMap.t ProgressRecord) (w : World) : World :=
  mkWorld (queue w) p (disk w) (ticks w) (writes w) (console w).
Definition set_disk (d : option DataDir) (w : World) : World :=
  mkWorld (queue w) (progress w) d (ticks w) (writes w) (console w).
Definition tick (w : World) : World :=
  mkWorld (queue w) (progress w) (disk w) (S (ticks w)) (writes w) (console w).
Definition count_write (w : World) : World :=
  mkWorld (queue w) (progress w) (disk w) (ticks w) (S (writes w)) (console w).
Definition print (l : logLine) (w : World) : World :=
  mkWorld (queue w) (progress w) (disk w) (ticks w) (writes w) (console w ++ [l]).

Definition console_log (msg : string) : M unit := modify (print (Log msg)).
Definition console_error (msg : string) (e : string) : M unit :=
  modify (print (Error msg e)).

(** ** File system calls *)

Inductive path : Type := QueuePath | ProgressPath.

Definition file_at (p : path) (d : DataDir) : file :=
  match p with QueuePath => queueFile d | ProgressPath => progressFile d end.

Definition put_file (p : path) (f : file) (d : DataDir) : DataDir :=
  match p with
  | QueuePath => mkDataDir f (progressFile d)
  | ProgressPath => mkDataDir (queueFile d) f
  end.

Definition existsSync_dataPath : M bool :=
  gets (fun w => match disk w with Some _ => true | None => false end).

Definition existsSync (p : path) : M bool :=
  gets (fun w =>
    match disk w with
    | Some d => match file_at p d with Absent => false | _ => true end
    | None => false
    end).

Definition readFileSync (p : path) : M string :=
  fun w =>
    match disk w with
    | Some d =>
        match file_at p d with
        | Content data => (Returned data, w)
        | Unreadable => (Thrown "EACCES", w)
        | Absent => (Thrown "ENOENT", w)
        end
    | None => (Thrown "ENOENT", w)
    end.

Section Service.

Variable env : Env.

Definition mkdirSync : M unit :=
  fun w =>
    if mkdirFault env then (Thrown "EACCES", w)
    else (Returned tt, set_disk (Some (mkDataDir Absent Absent)) w).

Definition writeFileSync (p : path) (data : string) : M unit :=
  fun w =>
    let w1 := count_write w in
    match disk w with
    | None => (Thrown "ENOENT", w1)
    | Some d =>
        match writeFault env (writes w) with
        | Some remains => (Thrown "EIO", set_disk (Some (put_file p remains d)) w1)
        | None => (Returned tt, set_disk (Some (put_file p (Content data) d)) w1)
        end
    end.

(** [Date.now()] printed, [Math.random().toString(36).substring(2,9)] and
    [new Date().toISOString()]: each reads the environment once. *)
Definition read_Date_now : M string :=
  fun w => (Returned (Date_now env (ticks w)), tick w).
Definition read_Math_random : M string :=
  fun w => (Returned (Math_random env (ticks w)), tick w).
Definition read_toISOString : M string :=
  fun w => (Returned (toISOString env (ticks w)), tick w).

(** ** [StorageService] *)

Definition ensureDataDirectory : M unit :=
  there <- existsSync_dataPath ;;
  if there then ret tt
  else (mkdirSync ;; console_log "directory created").

Definition loadFromDisk : M unit :=
  try_catch
    (hasQueue <- existsSync QueuePath ;;
     when hasQueue
       (queueData <- readFileSync QueuePath ;;
        match parse_queue env queueData with
        | None => throw "SyntaxError"
        | Some entries =>
            modify (set_queue (JsMap.of_entries entries)) ;;
            console_log "laoded form disk"
        end) ;;
     hasProgress <- existsSync ProgressPath ;;
     when hasProgress
       (progressData <- readFileSync ProgressPath ;;
        match parse_progress env progressData with
        | None => throw "SyntaxError"
        | Some entries =>
            modify (set_progress (JsMap.of_entries entries)) ;;
            console_log "Load from disk"
        end))
    (fun error =>
       console_error "Error loading from disk" error ;;
       modify (set_queue JsMap.empty) ;;
       modify (set_progress JsMap.empty)).

Definition saveToDisk : M unit :=
  try_catch
    (q <- gets queue ;;
     writeFileSync QueuePath (stringify_queue env q) ;;
     p <- gets progress ;;
     writeFileSync ProgressPath (stringify_progress env p) ;;
     console_log "Data saved")
    (fun error => console_error "Error saving" error).

Definition addToQueue (item : QueueInput) : M QueueItem :=
  now <- read_Date_now ;;
  rnd <- read_Math_random ;;
  iso <- read_toISOString ;;
  let queueItem :=
    mkQueueItem (now ++ "-" ++ rnd) (in_videoId item) (in_userId item)
                (in_progressSeconds item) iso in
  let key := key_of (in_userId item) (Some (in_videoId item)) in
  q <- gets queue ;;
  let existing := match JsMap.get q key with Some l => l | None => [] end in
  modify (set_queue (JsMap.set q key (existing ++ [queueItem]))) ;;
  saveToDisk ;;
  ret queueItem.

Definition getQueueItems (userId videoId : string) : M (list QueueItem) :=
  let key := key_of userId (Some videoId) in
  q <- gets queue ;;
  ret (match JsMap.get q key with Some l => l | None => [] end).

Definition getAllQueueItem : M (JsMap.t (list QueueItem)) := gets queue.

Definition clearQueue : M unit :=
  modify (set_queue JsMap.empty) ;;
  saveToDisk.

Definition clearQueueForKey (userId videoId : string) : M unit :=
  let key := key_of userId (Some videoId) in
  q <- gets queue ;;
  modify (set_queue (JsMap.delete q key)) ;;
  saveToDisk.

Definition getProgress (userId videoId : string) : M (option ProgressRecord) :=
  let key := key_of userId (Some videoId) in
  p <- gets progress ;;
  ret (JsMap.get p key).

Definition setProgress (userId : string) (videoId : option string)
    (furthestSeconds : number) : M ProgressRecord :=
  let key := key_of userId videoId in
  iso <- read_toISOString ;;
  let progressRecord := mkProgressRecord videoId userId furthestSeconds iso in
  p <- gets progress ;;
  modify (set_progress (JsMap.set p key progressRecord)) ;;
  saveToDisk ;;
  ret progressRecord.

Definition updateProgressIfHigher (userId : string) (videoId : option string)
    (seconds : number) : M bool :=
  let key := key_of userId videoId in
  p <- gets progress ;;
  match JsMap.get p key with
  | Some current =>
      if gt seconds (pr_furthestSeconds current)
      then (setProgress userId videoId seconds ;; ret true)
      else ret false
  | None => setProgress userId videoId seconds ;; ret true
  end.

Definition getAlssProgress : M (JsMap.t ProgressRecord) := gets progress.

Record CronResult : Type := mkCronResult {
  updated : nat;
  processed : nat
}.

(** Whether the engine takes the elements of [xs] as the arguments of one
    call. *)
Definition fits {A} (xs : list A) : bool :=
  (N.of_nat (length xs) <=? argumentLimit env)%N.

(** [Math.max(...xs)]: the array is spread into the arguments of the call,
    which throws when there are more of them than the engine takes. *)
Definition Math_max_spread (xs : list number) : M number :=
  if fits xs then ret (Math_max xs) else throw "RangeError".

(** The body of the [for ... of this.queue] loop; the accumulator is the
    local variable [updated]. Nothing in it is inside a [try]. *)
Definition cronStep (upd : nat) (entry : string * list QueueItem) : M nat :=
  let '(key, items) := entry in
  match items with
  | [] => ret upd
  | _ =>
      maxProgress <- Math_max_spread (map qi_progressSeconds items) ;;
      let '(userId, videoId) := destructure key in
      wasUpdated <- updateProgressIfHigher userId videoId maxProgress ;;
      ret (if wasUpdated : bool then S upd else upd)
  end.

Fixpoint cronLoop (upd : nat) (entries : list (string * list QueueItem))
    : M nat :=
  match entries with
  | [] => ret upd
  | e :: rest => upd' <- cronStep upd e ;; cronLoop upd' rest
  end.

Definition processCronJob : M CronResult :=
  let processed := 0 in
  q <- gets queue ;;
  upd <- cronLoop 0 q ;;
  modify (set_queue JsMap.empty) ;;
  saveToDisk ;;
  console_log "Cron job processed" ;;
  ret (mkCronResult upd processed).

Record Stats : Type := mkStats {
  queueSize : nat;
  queueItems : nat;
  progressRecords : nat;
  stats_dataPath : string
}.

Definition getStats : M Stats :=
  q <- gets queue ;;
  p <- gets progress ;;
  ret (mkStats (JsMap.size q) (length (concat (JsMap.values q)))
               (JsMap.size p) (dataPath env)).

Definition reset : M unit :=
  modify (set_queue JsMap.empty) ;;
  modify (set_progress JsMap.empty) ;;
  saveToDisk ;;
  console_log "Storage reset".

(** [new StorageService()]: the field initialisers, then the constructor. *)
Definition new_StorageService : M unit :=
  modify (set_queue JsMap.empty) ;;
  modify (set_progress JsMap.empty) ;;
  ensureDataDirectory ;;
  loadFromDisk.

(** ** Routes of [index.ts] *)

Record FurthestReply : Type := mkFurthestReply {
  reply_videoId : string;
  reply_userId : string;
  reply_furthestSeconds : number;
  reply_lastUpdated : option string
}.

(** [GET /api/progress/furthest] *)
Definition get_progress_furthest (userId videoId : string) : M FurthestReply :=
  pr <- getProgress userId videoId ;;
  ret (mkFurthestReply videoId userId
         (match pr with
          | Some r => or_zero (pr_furthestSeconds r)
          | None => Finite 0%Q
          end)
         (match pr with
          | Some r => if String.eqb (pr_updatedAt r) "" then None
                      else Some (pr_updatedAt r)
          | None => None
          end)).

End Service.

(** ** Closed forms

    The world and the result of each method written as plain functions;
    the section on running the methods proves them equal to the monadic
    code above. *)

Section ClosedForms.

Variable env : Env.

(** The world after [saveToDisk]. *)
Definition afterSave (w : World) : World := snd (saveToDisk env w).

(** The record written by [setProgress] in world [w]. *)
Definition recordAt (w : World) (userId : string) (videoId : option string)
    (x : number) : ProgressRecord :=
  mkProgressRecord videoId userId x (toISOString env (ticks w)).

Definition afterSetProgress (w : World) (userId : string)
    (videoId : option string) (x : number) : World :=
  afterSave
    (set_progress
       (JsMap.set (progress w) (key_of userId videoId)
          (recordAt w userId videoId x))
       (tick w)).

(** The test of [updateProgressIfHigher]. *)
Definition raises (w : World) (userId : string) (videoId : option string)
    (x : number) : bool :=
  match JsMap.get (progress w) (key_of userId videoId) with
  | Some current => gt x (pr_furthestSeconds current)
  | None => true
  end.

(** One turn of the loop of [processCronJob] on a bucket that can be spread
    into one call, as a function: the world and the count that the turn
    leaves when it returns. *)
Definition stepWorld (w : World) (entry : string * list QueueItem) : World :=
  match snd entry with
  | [] => w
  | items =>
      let x := Math_max (map qi_progressSeconds items) in
      let uv := destructure (fst entry) in
      if raises w (fst uv) (snd uv) x
      then afterSetProgress w (fst uv) (snd uv) x
      else w
  end.

Definition stepCount (w : World) (upd : nat) (entry : string * list QueueItem)
    : nat :=
  match snd entry with
  | [] => upd
  | items =>
      let x := Math_max (map qi_progressSeconds items) in
      let uv := destructure (fst entry) in
      if raises w (fst uv) (snd uv) x then S upd else upd
  end.

(** The world and the count after the turns of [entries], one after the
    other. *)
Fixpoint loopWorld (w : World) (entries : list (string * list QueueItem))
    : World :=
  match entries with
  | [] => w
  | e :: rest => loopWorld (stepWorld w e) rest
  end.

Fixpoint loopCount (w : World) (upd : nat)
    (entries : list (string * list QueueItem)) : nat :=
  match entries with
  | [] => upd
  | e :: rest => loopCount (stepWorld w e) (stepCount w upd e) rest
  end.

(** The world after a [processCronJob] that returns. *)
Definition afterCron (w : World) : World :=
  print (Log "Cron job processed")
    (afterSave (set_queue JsMap.empty (loopWorld w (queue w)))).

(** Every bucket of the queue can be spread into one call. *)
Definition withinLimit (q : JsMap.t (list QueueItem)) : bool :=
  forallb (fun e => fits env (snd e)) q.

(** The turns that the loop of [processCronJob] completes: those before
    the first bucket that cannot be spread. *)
Fixpoint turns (entries : list (string * list QueueItem))
    : list (string * list QueueItem) :=
  match entries with
  | [] => []
  | e :: rest => if fits env (snd e) then e :: turns rest else []
  end.

(** The world after [processCronJob], returned or thrown. *)
Definition afterMerge (w : World) : World :=
  if withinLimit (queue w) then afterCron w
  else loopWorld w (turns (queue w)).

(** The outcome of [processCronJob]. *)
Definition mergeOutcome (w : World) : outcome CronResult :=
  if withinLimit (queue w)
  then Returned (mkCronResult (loopCount w 0 (queue w)) 0)
  else Thrown "RangeError".

(** The item built by [addToQueue] in world [w]. *)
Definition itemAt (w : World) (item : QueueInput) : QueueItem :=
  mkQueueItem
    (Date_now env (ticks w) ++ "-" ++ Math_random env (S (ticks w)))
    (in_videoId item) (in_userId item) (in_progressSeconds item)
    (toISOString env (S (S (ticks w)))).

Definition bucket (w : World) (key : string) : list QueueItem :=
  match JsMap.get (queue w) key with Some l => l | None => [] end.

Definition afterAdd (w : World) (item : QueueInput) : World :=
  let key := key_of (in_userId item) (Some (in_videoId item)) in
  afterSave
    (set_queue (JsMap.set (queue w) key (bucket w key ++ [itemAt w item]))
       (tick (tick (tick w)))).

Definition afterReset (w : World) : World :=
  print (Log "Storage reset")
    (afterSave (set_progress JsMap.empty (set_queue JsMap.empty w))).

End ClosedForms.

(** ** Calls of the public methods

    A client of the class can call its public methods in any order;
    [perform] runs one call and drops its result. *)

Inductive call : Type :=
| AddToQueue (item : QueueInput)
| GetQueueItems (userId videoId : string)
| GetAllQueueItem
| ClearQueue
| ClearQueueForKey (userId videoId : string)
| GetProgress (userId videoId : string)
| SetProgress (userId : string) (videoId : option string) (furthestSeconds : number)
| UpdateProgressIfHigher (userId : string) (videoId : option string) (seconds : number)
| GetAlssProgress
| ProcessCronJob
| GetStats
| Reset.

Definition perform (env : Env) (c : call) : M unit :=
  match c with
  | AddToQueue item => addToQueue env item ;; ret tt
  | GetQueueItems u v => getQueueItems u v ;; ret tt
  | GetAllQueueItem => getAllQueueItem ;; ret tt
  | ClearQueue => clearQueue env
  | ClearQueueForKey u v => clearQueueForKey env u v
  | GetProgress u v => getProgress u v ;; ret tt
  | SetProgress u v x => setProgress env u v x ;; ret tt
  | UpdateProgressIfHigher u v x => updateProgressIfHigher env u v x ;; ret tt
  | GetAlssProgress => getAlssProgress ;; ret tt
  | ProcessCronJob => processCronJob env ;; ret tt
  | GetStats => getStats env ;; ret tt
  | Reset => reset env
  end.

Fixpoint performAll (env : Env) (cs : list call) : M unit :=
  match cs with
  | [] => ret tt
  | c :: rest => perform env c ;; performAll env rest
  end.

(** The two methods that write the committed table without comparing:
    [setProgress] overwrites, [reset] clears. *)
Definition overwrites (c : call) : bool :=
  match c with
  | SetProgress _ _ _ | Reset => true
  | _ => false
  end.

(** The calls that the routes of [index.ts] make. *)
Definition routed (c : call) : bool :=
  match c with
  | AddToQueue _ | GetProgress _ _ | ProcessCronJob | GetStats | Reset => true
  | _ => false
  end.

(** Every record of [p] is still in [p'], the same or with a greater
    [furthestSeconds]. *)
Definition neverLowered (p p' : JsMap.t ProgressRecord) : Prop :=
  forall k r,
    JsMap.get p k = Some r ->
    exists r',
      JsMap.get p' k = Some r' /\
      (r' = r \/ gt (pr_furthestSeconds r') (pr_furthestSeconds r) = true).

(** ** Concrete environments and worlds used in the examples *)

Definition parseEmptyObject {V} (data : string) : option (list (string * V)) :=
  if String.eqb data "{}" then Some [] else None.

(** A quiet environment: the clock stands still, writes succeed, the codec
    only knows the empty object, a call takes up to 65536 arguments and the
    framework takes the finite numbers. *)
Definition quietEnv : Env :=
  mkEnv "data"
    (fun _ => "1700000000000") (fun _ => "k3x9q2a")
    (fun _ => "2024-01-01T00:00:00.000Z")
    (fun _ => "{}") (fun _ => "{}")
    parseEmptyObject parseEmptyObject
    false (fun _ => None) 65536%N is_finite.

(** The same environment with a disk on which every write throws and leaves
    the file as it was found missing. *)
Definition brokenDiskEnv : Env :=
  mkEnv "data"
    (fun _ => "1700000000000") (fun _ => "k3x9q2a")
    (fun _ => "2024-01-01T00:00:00.000Z")
    (fun _ => "{}") (fun _ => "{}")
    parseEmptyObject parseEmptyObject
    false (fun _ => Some Absent) 65536%N is_finite.

(** A freshly started service over an empty data directory. *)
Definition freshWorld : World :=
  mkWorld [] [] (Some (mkDataDir Absent Absent)) 0 0 [].

(** The sample of the README: user [test-user-1] at second 42 of the video
    [yt-abc123] that [GET /api/video] serves. *)
Definition readmeSample : QueueInput :=
  mkQueueInput "yt-abc123" "test-user-1" (Finite 42).

Definition readmeWorld : World := snd (addToQueue quietEnv readmeSample freshWorld).

(** A world where the pair (u, v) has 10 seconds committed, reached through
    the routes: one sample, one merge. *)
Definition committedWorld : World :=
  snd (processCronJob quietEnv
         (snd (addToQueue quietEnv (mkQueueInput "v" "u" (Finite 10)) freshWorld))).

(** ** Write faults *)

(** The environment [env] with a disk that takes every write. *)
Definition withoutFaults (env : Env) : Env :=
  mkEnv (dataPath env) (Date_now env) (Math_random env) (toISOString env)
    (stringify_queue env) (stringify_progress env)
    (parse_queue env) (parse_progress env)
    (mkdirFault env) (fun _ => None) (argumentLimit env) (schemaNumber env).

(** Two worlds with the same memory of the service and the same clock. *)
Definition sameMemory (w1 w2 : World) : Prop :=
  queue w1 = queue w2 /\ progress w1 = progress w2 /\ ticks w1 = ticks w2.

(** A call of [writeFileSync] made between [w] and [w'] threw. *)
Definition writeFails (env : Env) (w w' : World) : Prop :=
  exists n, writes w <= n < writes w' /\ writeFault env n <> None.

(** From [w] to [w'] the console only got longer, and every write that threw
    in between left an ["Error saving"] line. *)
Definition logsFaults (env : Env) (w w' : World) : Prop :=
  writes w <= writes w' /\
  exists lines,
    console w' = console w ++ lines /\
    (writeFails env w w' -> exists e, In (Error "Error saving" e) lines).

(** What happens to a failed write in a method [op]: the caller gets the
    result of the run without faults, as a normal return; the memory is that
    of the run without faults; the error is on the console. *)
Definition swallowsFaults {A} (op : Env -> M A) (env : Env) (w : World) : Prop :=
  let run := op env w in
  let calm := op (withoutFaults env) w in
  fst run = fst calm /\
  (exists a, fst run = Returned a) /\
  sameMemory (snd run) (snd calm) /\
  (writeFails env w (snd run) ->
   exists e, In (Error "Error saving" e) (console (snd run))).

(** The same without the normal return: what holds of a method that may
    throw for a reason of its own, as [processCronJob] does when a bucket
    cannot be spread. The caller gets the outcome of the run without
    faults, so no error of a write ever reaches it. *)
Definition absorbsFaults {A} (op : Env -> M A) (env : Env) (w : World) : Prop :=
  let run := op env w in
  let calm := op (withoutFaults env) w in
  fst run = fst calm /\
  sameMemory (snd run) (snd calm) /\
  (writeFails env w (snd run) ->
   exists e, In (Error "Error saving" e) (console (snd run))).

(** ** Files that cannot be loaded *)

(** A file that is there and whose reading or parsing throws. *)
Definition brokenFile {V} (parse : string -> option (list (string * V)))
    (f : file) : bool :=
  match f with
  | Absent => false
  | Unreadable => true
  | Content data =>
      match parse data with None => true | Some _ => false end
  end.

Definition deserializationFails (env : Env) (d : DataDir) : bool :=
  brokenFile (parse_queue env) (queueFile d)
  || brokenFile (parse_progress env) (progressFile d).

(** A service that was running, stopped over a data directory whose queue
    file is sound and whose progress file got truncated. *)
Definition truncatedWorld : World :=
  mkWorld [] [] (Some (mkDataDir (Content "{}") (Content "{ a-b: { "))) 0 0 [].

(** ** The merge rule *)

(** The rule of the merge for the bucket [items] of [key]. *)
Definition mergedRecord (before : option ProgressRecord) (items : list QueueItem)
    (after : option ProgressRecord) : Prop :=
  let candidate := Math_max (map qi_progressSeconds items) in
  match before with
  | None => exists r, after = Some r /\ pr_furthestSeconds r = candidate
  | Some current =>
      if gt candidate (pr_furthestSeconds current)
      then exists r, after = Some r /\ pr_furthestSeconds r = candidate
      else after = Some current
  end.

(** ** The other routes of [index.ts]

    A route is its schema and its handler: the framework checks the request
    against the schema and runs the handler only when the check passes. The
    ids are strings in the model, so [t.String()] always passes; the one
    check that can fail is the one of [progressSeconds]. *)

(** What a route with a schema answers: the reply of its handler, or the
    refusal of the framework, with the handler not run. *)
Inductive response (A : Type) : Type :=
| Replied (a : A)
| Refused.
Arguments Replied {A} a.
Arguments Refused {A}.

(** [t.Number({ minimum: 0 })] *)
Definition schema_progressSeconds (env : Env) (x : number) : bool :=
  schemaNumber env x && nonneg x.

Record VideoReply : Type := mkVideoReply {
  video_videoId : string;
  video_url : string;
  video_title : string;
  video_duration : number
}.

(** [GET /api/video] *)
Definition get_video : VideoReply :=
  mkVideoReply "yt-abc123" "https://www.youtube.com/watch?v=dQw4w9WgXcQ"
    "Sample Video" (Finite 212).

Record QueueReply : Type := mkQueueReply {
  queue_ok : bool;
  queue_item : QueueItem
}.

(** [POST /api/progress/queue] *)
Definition post_progress_queue (env : Env) (body : QueueInput)
    : M (response QueueReply) :=
  if schema_progressSeconds env (in_progressSeconds body)
  then (queueItem <- addToQueue env body ;;
        ret (Replied (mkQueueReply true queueItem)))
  else ret Refused.

(** [POST /api/progress/run-cron] *)
Definition post_progress_run_cron (env : Env) : M CronResult :=
  result <- processCronJob env ;;
  ret result.

(** [GET /api/stats] *)
Definition get_stats (env : Env) : M Stats := getStats env.

(** [POST /api/reset] *)
Definition post_reset (env : Env) : M bool :=
  reset env ;;
  ret true.

(** ** Notions used in the further properties *)

(** Both maps have each key once, as every JS [Map] has. *)
Definition uniqueKeys (w : World) : Prop :=
  NoDup (JsMap.keys (queue w)) /\ NoDup (JsMap.keys (progress w)).

(** The map that [loadFromDisk] builds from a file that loads. *)
Definition loaded {V} (parse : string -> option (list (string * V)))
    (f : file) : JsMap.t V :=
  match f with
  | Content data =>
      match parse data with
      | Some entries => JsMap.of_entries entries
      | None => JsMap.empty
      end
  | _ => JsMap.empty
  end.

Definition isError (l : logLine) : bool :=
  match l with Error _ _ => true | Log _ => false end.

(** The buckets that the loop of [processCronJob] does not skip. *)
Definition nonEmptyBuckets (q : JsMap.t (list QueueItem)) : nat :=
  length (filter (fun e => match snd e with [] => false | _ => true end) q).

(** What [getStats] counts as [queueItems]. *)
Definition pendingSamples (q : JsMap.t (list QueueItem)) : nat :=
  length (concat (JsMap.values q)).

(** ** More concrete environments and worlds *)

(** A sample of the pair (u, v) as [addToQueue] makes it under [quietEnv]. *)
Definition sampleOf (seconds : number) : QueueItem :=
  mkQueueItem "1700000000000-k3x9q2a" "v" "u" seconds "2024-01-01T00:00:00.000Z".

Definition quietLog : list logLine :=
  [Log "Data saved"; Log "Data saved"; Log "Data saved"; Log "Cron job processed"].

(** The pair (u, v) with 10 seconds committed and the samples 5, 12 and 3
    pending: the world that three calls of [addToQueue] leave after
    [committedWorld]. *)
Definition pendingWorld : World :=
  mkWorld
    [("u-v", [sampleOf (Finite 5); sampleOf (Finite 12); sampleOf (Finite 3)])]
    [("u-v", mkProgressRecord (Some "v") "u" (Finite 10) "2024-01-01T00:00:00.000Z")]
    (Some (mkDataDir (Content "{}") (Content "{}")))
    13 12
    (quietLog ++ [Log "Data saved"; Log "Data saved"; Log "Data saved"]).

(** An environment whose codec writes the two maps of [pendingWorld] as two
    fixed texts and reads these texts back. *)
Definition codecEnv : Env :=
  mkEnv "data"
    (fun _ => "1700000000000") (fun _ => "k3x9q2a")
    (fun _ => "2024-01-01T00:00:00.000Z")
    (fun _ => "queue of pendingWorld") (fun _ => "progress of pendingWorld")
    (fun data => if String.eqb data "queue of pendingWorld"
                 then Some (queue pendingWorld) else None)
    (fun data => if String.eqb data "progress of pendingWorld"
                 then Some (progress pendingWorld) else None)
    false (fun _ => None) 65536%N is_finite.

(** A process started where there is no data directory. *)
Definition noDirWorld : World := mkWorld [] [] None 0 0 [].

(** An environment in which the data directory cannot be made. *)
Definition readOnlyEnv : Env :=
  mkEnv "data"
    (fun _ => "1700000000000") (fun _ => "k3x9q2a")
    (fun _ => "2024-01-01T00:00:00.000Z")
    (fun _ => "{}") (fun _ => "{}")
    parseEmptyObject parseEmptyObject
    true (fun _ => None) 65536%N is_finite.

(** An environment whose disk takes the first write and refuses the second,
    leaving that file unreadable. *)
Definition secondWriteFailsEnv : Env :=
  mkEnv "data"
    (fun _ => "1700000000000") (fun _ => "k3x9q2a")
    (fun _ => "2024-01-01T00:00:00.000Z")
    (fun _ => "{}") (fun _ => "{}")
    parseEmptyObject parseEmptyObject
    false (fun n => match n with 1 => Some Unreadable | _ => None end)
    65536%N is_finite.

(** The engine takes as arguments of one call all the pending samples of
    [w] and [n] more: no bucket can outgrow a call within the next [n]
    calls. *)
Definition roomFor (env : Env) (w : World) (n : nat) : Prop :=
  (N.of_nat (pendingSamples (queue w) + n) <= argumentLimit env)%N.

(** A list of numbers without [NaN]. *)
Definition nanFree (xs : list number) : Prop := ~ In NaN xs.

(** The key under which [processCronJob] commits the bucket of [key]. *)
Definition committedKey (key : string) : string :=
  key_of (fst (destructure key)) (snd (destructure key)).

(** A world where the pair (u, v) has [NaN] committed: the world left on
    [freshWorld] by a [NaN] sample passed to [addToQueue] and a merge. *)
Definition nanWorld : World :=
  mkWorld []
    [("u-v", mkProgressRecord (Some "v") "u" NaN "2024-01-01T00:00:00.000Z")]
    (Some (mkDataDir (Content "{}") (Content "{}")))
    4 6 quietLog.

(** * Properties *)

(** ** Comparison of numbers *)

Lemma Qlt_bool_iff (x y : Q) : Qlt_bool x y = true <-> (x < y)%Q.
Proof.
  unfold Qlt_bool. rewrite negb_true_iff. split; intro H.
  - apply Qnot_le_lt. intro Hle. apply Qle_bool_iff in Hle. congruence.
  - destruct (Qle_bool y x) eqn:E; [|reflexivity].
    apply Qle_bool_iff in E. exfalso. exact (Qlt_not_le _ _ H E).
Qed.

Lemma gt_irrefl (a : number) : gt a a = false.
Proof.
  destruct a; simpl; try reflexivity.
  destruct (Qlt_bool q q) eqn:E; [|reflexivity].
  apply Qlt_bool_iff in E. exfalso. exact (Qlt_irrefl _ E).
Qed.

Lemma gt_trans (a b c : number) :
  gt a b = true -> gt b c = true -> gt a c = true.
Proof.
  destruct a, b, c; simpl; try congruence.
  intros H1 H2. apply Qlt_bool_iff in H1, H2. apply Qlt_bool_iff.
  exact (Qlt_trans _ _ _ H2 H1).
Qed.

Lemma gt_asym (a b : number) : gt a b = true -> gt b a = false.
Proof.
  intro H. destruct (gt b a) eqn:E; [|reflexivity].
  pose proof (gt_trans _ _ _ H E) as Hc. rewrite gt_irrefl in Hc. discriminate.
Qed.

(** ** Lookup after update *)

Lemma get_set_same {V} (m : JsMap.t V) (k : string) (v : V) :
  JsMap.get (JsMap.set m k v) k = Some v.
Proof.
  induction m as [|[k' v'] m IH]; simpl.
  - now rewrite String.eqb_refl.
  - destruct (String.eqb k k') eqn:E; simpl; rewrite E; auto.
Qed.

Lemma get_set_other {V} (m : JsMap.t V) (k k' : string) (v : V) :
  k' <> k -> JsMap.get (JsMap.set m k v) k' = JsMap.get m k'.
Proof.
  intro Hne. induction m as [|[k0 v0] m IH]; simpl.
  - destruct (String.eqb k' k) eqn:E; [|reflexivity].
    apply String.eqb_eq in E. contradiction.
  - destruct (String.eqb k k0) eqn:E; simpl.
    + apply String.eqb_eq in E. subst k0.
      destruct (String.eqb k' k) eqn:E'; [|reflexivity].
      apply String.eqb_eq in E'. contradiction.
    + now rewrite IH.
Qed.


(** ** Hyphens in keys *)

Lemma hyphens_app (a b : string) : hyphens (a ++ b) = hyphens a + hyphens b.
Proof. induction a as [|c a IH]; simpl; [reflexivity|]. rewrite IH. lia. Qed.

Lemma hasHyphen_hyphens (s : string) : hasHyphen s = true <-> 0 < hyphens s.
Proof.
  induction s as [|c s IH]; simpl.
  - split; [discriminate|lia].
  - destruct (isHyphen c); simpl; [split; [lia|reflexivity]|exact IH].
Qed.

Lemma hasHyphen_false_hyphens (s : string) :
  hasHyphen s = false <-> hyphens s = 0.
Proof.
  pose proof (hasHyphen_hyphens s) as H.
  destruct (hasHyphen s); split; intro E; try reflexivity; try discriminate.
  - assert (0 < hyphens s) by now apply H. lia.
  - destruct (hyphens s); [reflexivity|].
    assert (false = true) by (apply H; lia). discriminate.
Qed.

Lemma hyphens_key_of (u : string) (v : option string) :
  hyphens (key_of u v) = hyphens u + 1 + hyphens (show v).
Proof. unfold key_of. rewrite !hyphens_app. simpl. lia. Qed.

(** No segment of a split contains a hyphen. *)
Lemma split_segments (s : string) :
  hyphens (fst (split s)) = 0 /\
  Forall (fun x => hyphens x = 0) (snd (split s)).
Proof.
  induction s as [|c s [IHh IHt]]; simpl.
  - split; [reflexivity|constructor].
  - destruct (split s) as [h t]. simpl in *.
    destruct (isHyphen c) eqn:E; simpl.
    + split; [reflexivity|]. constructor; assumption.
    + rewrite E. split; [exact IHh|exact IHt].
Qed.

Lemma join_split (s : string) : join (fst (split s)) (snd (split s)) = s.
Proof.
  induction s as [|c s IH]; simpl; [reflexivity|].
  destruct (split s) as [h t]. simpl in *.
  destruct (isHyphen c) eqn:E; simpl.
  - unfold isHyphen in E. apply Ascii.eqb_eq in E. subst c. now rewrite IH.
  - destruct t; simpl in *; now rewrite IH.
Qed.

(** The key under which [processCronJob] commits has exactly one hyphen. *)
Lemma hyphens_destructured (key : string) :
  hyphens (key_of (fst (destructure key)) (snd (destructure key))) = 1.
Proof.
  unfold destructure. pose proof (split_segments key) as [Hh Ht].
  destruct (split key) as [h t]. simpl in *.
  rewrite hyphens_key_of, Hh.
  destruct t as [|x t]; simpl; [reflexivity|].
  inversion Ht; subst. lia.
Qed.

(** A hyphen-free pair is recovered from its key. *)
Lemma split_hyphen_free (s : string) : hyphens s = 0 -> split s = (s, []).
Proof.
  induction s as [|c s IH]; simpl; [reflexivity|].
  destruct (isHyphen c); simpl; [discriminate|].
  intro H. now rewrite (IH H).
Qed.

Lemma split_app_hyphen (u r : string) :
  hyphens u = 0 ->
  split (u ++ String "-"%char r) = (u, fst (split r) :: snd (split r)).
Proof.
  induction u as [|c u IH]; simpl.
  - intros _. now destruct (split r).
  - destruct (isHyphen c) eqn:E; simpl; [discriminate|].
    intro H. rewrite (IH H). reflexivity.
Qed.

Lemma destructure_key_of (u v : string) :
  hyphens u = 0 -> hyphens v = 0 ->
  destructure (key_of u (Some v)) = (u, Some v).
Proof.
  intros Hu Hv. unfold destructure, key_of. simpl show.
  change ("-" ++ v)%string with (String "-"%char v).
  rewrite (split_app_hyphen u v Hu), (split_hyphen_free v Hv). reflexivity.
Qed.

(** ** Running the methods *)

Lemma bind_returned {A B} (m : M A) (k : A -> M B) (w w' : World) (a : A) :
  m w = (Returned a, w') -> bind m k w = k a w'.
Proof. intro H. unfold bind. now rewrite H. Qed.

Section Running.

Variable env : Env.

(** [saveToDisk] never throws: its [catch] takes every error. *)
Lemma saveToDisk_returns (w : World) :
  saveToDisk env w = (Returned tt, afterSave env w).
Proof.
  unfold afterSave, saveToDisk, try_catch, bind, gets, writeFileSync,
    console_log, console_error, modify.
  simpl. destruct (disk w); simpl; [|reflexivity].
  destruct (writeFault env (writes w)); simpl; [reflexivity|].
  destruct (writeFault env (S (writes w))); reflexivity.
Qed.

Lemma afterSave_memory (w : World) :
  queue (afterSave env w) = queue w /\
  progress (afterSave env w) = progress w /\
  ticks (afterSave env w) = ticks w.
Proof.
  unfold afterSave, saveToDisk, try_catch, bind, gets, writeFileSync,
    console_log, console_error, modify.
  simpl. destruct (disk w); simpl; [|auto].
  destruct (writeFault env (writes w)); simpl; [auto|].
  destruct (writeFault env (S (writes w))); simpl; auto.
Qed.

Lemma queue_afterSave (w : World) : queue (afterSave env w) = queue w.
Proof. apply afterSave_memory. Qed.

Lemma progress_afterSave (w : World) : progress (afterSave env w) = progress w.
Proof. apply afterSave_memory. Qed.

Lemma ticks_afterSave (w : World) : ticks (afterSave env w) = ticks w.
Proof. apply afterSave_memory. Qed.

Lemma setProgress_returns (w : World) userId videoId x :
  setProgress env userId videoId x w =
  (Returned (recordAt env w userId videoId x), afterSetProgress env w userId videoId x).
Proof.
  unfold setProgress, bind, read_toISOString, gets, modify. simpl.
  rewrite saveToDisk_returns. reflexivity.
Qed.

Lemma queue_afterSetProgress w u v x :
  queue (afterSetProgress env w u v x) = queue w.
Proof. unfold afterSetProgress. now rewrite queue_afterSave. Qed.

Lemma progress_afterSetProgress w u v x :
  progress (afterSetProgress env w u v x) =
  JsMap.set (progress w) (key_of u v) (recordAt env w u v x).
Proof. unfold afterSetProgress. now rewrite progress_afterSave. Qed.

Lemma updateProgressIfHigher_returns (w : World) userId videoId x :
  updateProgressIfHigher env userId videoId x w =
  if raises w userId videoId x
  then (Returned true, afterSetProgress env w userId videoId x)
  else (Returned false, w).
Proof.
  unfold updateProgressIfHigher, raises, bind, gets, ret. simpl.
  destruct (JsMap.get (progress w) (key_of userId videoId)) as [cur|].
  - destruct (gt x (pr_furthestSeconds cur)); [|reflexivity].
    now rewrite setProgress_returns.
  - now rewrite setProgress_returns.
Qed.

Lemma fits_map {A B} (f : A -> B) (xs : list A) :
  fits env (map f xs) = fits env xs.
Proof. unfold fits. now rewrite length_map. Qed.

Lemma fits_nil {A} : fits env (@nil A) = true.
Proof. unfold fits. simpl. apply N.leb_le. apply N.le_0_l. Qed.

(** A turn of the loop: it throws, leaving the world as it is, when the
    bucket cannot be spread; otherwise it returns. *)
Lemma cronStep_runs (w : World) upd entry :
  cronStep env upd entry w =
  if fits env (snd entry)
  then (Returned (stepCount w upd entry), stepWorld env w entry)
  else (Thrown "RangeError", w).
Proof.
  unfold cronStep, stepCount, stepWorld. destruct entry as [key items].
  destruct items as [|i items]; cbn [fst snd]; [now rewrite fits_nil|].
  unfold bind, Math_max_spread. rewrite fits_map.
  destruct (fits env (i :: items)); [|reflexivity].
  unfold ret. destruct (destructure key) as [u v]. cbn [fst snd].
  rewrite updateProgressIfHigher_returns.
  destruct (raises w u v _); reflexivity.
Qed.

Lemma cronLoop_runs (entries : list (string * list QueueItem)) :
  forall w upd,
    cronLoop env upd entries w =
    if withinLimit env entries
    then (Returned (loopCount env w upd entries), loopWorld env w entries)
    else (Thrown "RangeError", loopWorld env w (turns env entries)).
Proof.
  induction entries as [|e rest IH]; intros w upd; simpl; [reflexivity|].
  unfold bind. rewrite cronStep_runs.
  destruct (fits env (snd e)); simpl; [apply IH|reflexivity].
Qed.

(** [processCronJob] in every world: its outcome and the world it leaves. *)
Lemma processCronJob_runs (w : World) :
  processCronJob env w = (mergeOutcome env w, afterMerge env w).
Proof.
  unfold processCronJob, mergeOutcome, afterMerge, bind, gets, modify,
    console_log, ret.
  simpl. rewrite cronLoop_runs.
  destruct (withinLimit env (queue w)); [|reflexivity].
  simpl. rewrite saveToDisk_returns. reflexivity.
Qed.

Lemma processCronJob_returns (w : World) :
  withinLimit env (queue w) = true ->
  processCronJob env w =
  (Returned (mkCronResult (loopCount env w 0 (queue w)) 0), afterCron env w).
Proof.
  intro H. rewrite processCronJob_runs. unfold mergeOutcome, afterMerge.
  now rewrite H.
Qed.

(** With a bucket that cannot be spread the merge throws after the turns
    before that bucket: the queue is not cleared and nothing is saved or
    printed after the loop. *)
Lemma processCronJob_throws (w : World) :
  withinLimit env (queue w) = false ->
  processCronJob env w =
  (Thrown "RangeError", loopWorld env w (turns env (queue w))).
Proof.
  intro H. rewrite processCronJob_runs. unfold mergeOutcome, afterMerge.
  now rewrite H.
Qed.

Lemma turns_withinLimit (entries : list (string * list QueueItem)) :
  withinLimit env entries = true -> turns env entries = entries.
Proof.
  induction entries as [|e rest IH]; simpl; [reflexivity|].
  destruct (fits env (snd e)); simpl; [|discriminate].
  intro H. now rewrite IH.
Qed.

Lemma turns_incl (entries : list (string * list QueueItem)) e :
  In e (turns env entries) -> In e entries.
Proof.
  induction entries as [|e0 rest IH]; simpl; [tauto|].
  destruct (fits env (snd e0)); simpl; [|tauto].
  intros [H|H]; auto.
Qed.

(** In both cases the committed table is the one that the completed turns
    leave. *)
Lemma progress_afterMerge (w : World) :
  progress (afterMerge env w) = progress (loopWorld env w (turns env (queue w))).
Proof.
  unfold afterMerge. destruct (withinLimit env (queue w)) eqn:E; [|reflexivity].
  rewrite (turns_withinLimit _ E). unfold afterCron. simpl.
  now rewrite progress_afterSave.
Qed.

Lemma queue_afterCron (w : World) : queue (afterCron env w) = [].
Proof. unfold afterCron. simpl. now rewrite queue_afterSave. Qed.

Lemma progress_afterCron (w : World) :
  progress (afterCron env w) = progress (loopWorld env w (queue w)).
Proof. unfold afterCron. simpl. now rewrite progress_afterSave. Qed.

Lemma addToQueue_returns (w : World) (item : QueueInput) :
  addToQueue env item w = (Returned (itemAt env w item), afterAdd env w item).
Proof.
  unfold addToQueue, bind, read_Date_now, read_Math_random, read_toISOString,
    gets, modify. simpl.
  rewrite saveToDisk_returns. reflexivity.
Qed.

Lemma queue_afterAdd (w : World) (item : QueueInput) :
  queue (afterAdd env w item) =
  JsMap.set (queue w) (key_of (in_userId item) (Some (in_videoId item)))
    (bucket w (key_of (in_userId item) (Some (in_videoId item)))
       ++ [itemAt env w item]).
Proof. unfold afterAdd. now rewrite queue_afterSave. Qed.

Lemma progress_afterAdd (w : World) (item : QueueInput) :
  progress (afterAdd env w item) = progress w.
Proof. unfold afterAdd. now rewrite progress_afterSave. Qed.

Lemma reset_returns (w : World) : reset env w = (Returned tt, afterReset env w).
Proof.
  unfold reset, bind, modify, console_log. simpl.
  rewrite saveToDisk_returns. reflexivity.
Qed.

End Running.

(** ** The committed table only grows *)

Lemma neverLowered_refl (p : JsMap.t ProgressRecord) : neverLowered p p.
Proof. intros k r H. exists r. auto. Qed.

Lemma neverLowered_trans (p1 p2 p3 : JsMap.t ProgressRecord) :
  neverLowered p1 p2 -> neverLowered p2 p3 -> neverLowered p1 p3.
Proof.
  intros H12 H23 k r1 H1.
  destruct (H12 k r1 H1) as (r2 & H2 & Hr2).
  destruct (H23 k r2 H2) as (r3 & H3 & Hr3).
  exists r3. split; [assumption|].
  destruct Hr2 as [->|Hgt2]; [assumption|].
  destruct Hr3 as [->|Hgt3]; [now right|].
  right. exact (gt_trans _ _ _ Hgt3 Hgt2).
Qed.

Lemma neverLowered_not_lt (p p' : JsMap.t ProgressRecord) k r r' :
  neverLowered p p' ->
  JsMap.get p k = Some r -> JsMap.get p' k = Some r' ->
  lt (pr_furthestSeconds r') (pr_furthestSeconds r) = false.
Proof.
  intros H Hr Hr'. destruct (H k r Hr) as (r2 & H2 & Hcase).
  rewrite Hr' in H2. injection H2 as <-. unfold lt.
  destruct Hcase as [->|Hgt]; [apply gt_irrefl|now apply gt_asym].
Qed.

Section Growth.

Variable env : Env.

Lemma neverLowered_raise (w : World) u v x :
  raises w u v x = true ->
  neverLowered (progress w) (progress (afterSetProgress env w u v x)).
Proof.
  intros Hr k r Hget. rewrite progress_afterSetProgress.
  destruct (string_dec k (key_of u v)) as [->|Hne].
  - rewrite get_set_same. eexists. split; [reflexivity|].
    right. unfold raises in Hr. rewrite Hget in Hr. exact Hr.
  - rewrite (get_set_other _ _ _ _ Hne). exists r. auto.
Qed.

Lemma neverLowered_step (w : World) e :
  neverLowered (progress w) (progress (stepWorld env w e)).
Proof.
  unfold stepWorld. destruct (snd e); [apply neverLowered_refl|].
  match goal with |- context [if ?b then _ else _] => destruct b eqn:E end.
  - now apply neverLowered_raise.
  - apply neverLowered_refl.
Qed.

Lemma neverLowered_loop (es : list (string * list QueueItem)) :
  forall w, neverLowered (progress w) (progress (loopWorld env w es)).
Proof.
  induction es as [|e es IH]; intro w; simpl; [apply neverLowered_refl|].
  eapply neverLowered_trans; [apply neverLowered_step|apply IH].
Qed.

Lemma neverLowered_merge (w : World) :
  neverLowered (progress w) (progress (afterMerge env w)).
Proof. rewrite progress_afterMerge. apply neverLowered_loop. Qed.

(** The loop leaves the queue alone. *)
Lemma queue_stepWorld (w : World) e : queue (stepWorld env w e) = queue w.
Proof.
  unfold stepWorld. destruct (snd e); [reflexivity|].
  match goal with |- context [if ?b then _ else _] => destruct b end;
    [apply queue_afterSetProgress|reflexivity].
Qed.

Lemma queue_loopWorld (es : list (string * list QueueItem)) :
  forall w, queue (loopWorld env w es) = queue w.
Proof.
  induction es as [|e es IH]; intro w; simpl; [reflexivity|].
  now rewrite IH, queue_stepWorld.
Qed.

(** ** Where the loop writes *)

(** A turn of the loop only writes under a key with exactly one hyphen. *)
Lemma progress_step_elsewhere (w : World) e k :
  hyphens k <> 1 ->
  JsMap.get (progress (stepWorld env w e)) k = JsMap.get (progress w) k.
Proof.
  intro Hk. unfold stepWorld. destruct (snd e); [reflexivity|].
  match goal with |- context [if ?b then _ else _] => destruct b end;
    [|reflexivity].
  rewrite progress_afterSetProgress. apply get_set_other.
  intro Heq. apply Hk. rewrite Heq. apply hyphens_destructured.
Qed.

Lemma progress_loop_elsewhere (es : list (string * list QueueItem)) k :
  hyphens k <> 1 ->
  forall w, JsMap.get (progress (loopWorld env w es)) k = JsMap.get (progress w) k.
Proof.
  intro Hk. induction es as [|e es IH]; intro w; simpl; [reflexivity|].
  now rewrite IH, progress_step_elsewhere.
Qed.


Lemma progress_merge_elsewhere (w : World) k :
  hyphens k <> 1 ->
  JsMap.get (progress (afterMerge env w)) k = JsMap.get (progress w) k.
Proof.
  intro Hk. rewrite progress_afterMerge. now apply progress_loop_elsewhere.
Qed.

End Growth.

(** ** Calls that compare before they write *)

Section Calls.

Variable env : Env.

(** Whatever its outcome, a call that compares before it writes leaves a
    table that has only grown. *)
Lemma perform_grows (c : call) (w : World) :
  overwrites c = false ->
  neverLowered (progress w) (progress (snd (perform env c w))).
Proof.
  destruct c; simpl; intro Hc; try discriminate;
    try apply neverLowered_refl.
  - erewrite bind_returned by apply addToQueue_returns. simpl.
    rewrite progress_afterAdd. apply neverLowered_refl.
  - unfold clearQueue, bind, modify. rewrite saveToDisk_returns. simpl.
    rewrite progress_afterSave. apply neverLowered_refl.
  - unfold clearQueueForKey, bind, gets, modify. rewrite saveToDisk_returns.
    simpl. rewrite progress_afterSave. apply neverLowered_refl.
  - unfold bind. rewrite updateProgressIfHigher_returns.
    destruct (raises w userId videoId seconds) eqn:E; simpl.
    + now apply neverLowered_raise.
    + apply neverLowered_refl.
  - unfold bind. rewrite processCronJob_runs.
    destruct (mergeOutcome env w); simpl; apply neverLowered_merge.
Qed.

(** A relation between worlds that every allowed call keeps is kept by
    every sequence of allowed calls, whether the sequence runs to its end
    or stops at a call that throws. *)
Lemma performAll_keeps (R : World -> World -> Prop) (allowed : call -> Prop) :
  (forall w, R w w) ->
  (forall w1 w2 w3, R w1 w2 -> R w2 w3 -> R w1 w3) ->
  (forall c w, allowed c -> R w (snd (perform env c w))) ->
  forall cs,
    Forall allowed cs ->
    forall w, R w (snd (performAll env cs w)).
Proof.
  intros Hrefl Htrans Hstep cs Hcs.
  induction Hcs as [|c cs Hc _ IH]; intro w; simpl; [apply Hrefl|].
  pose proof (Hstep c w Hc) as H1. unfold bind.
  destruct (perform env c w) as [[[]|e] w1]; simpl in *; [|exact H1].
  eapply Htrans; [exact H1|apply IH].
Qed.

Lemma performAll_grows (cs : list call) :
  Forall (fun c => overwrites c = false) cs ->
  forall w, neverLowered (progress w) (progress (snd (performAll env cs w))).
Proof.
  apply (performAll_keeps
           (fun w w' => neverLowered (progress w) (progress w'))).
  - intro w. apply neverLowered_refl.
  - intros w1 w2 w3. apply neverLowered_trans.
  - intros c w. apply perform_grows.
Qed.

End Calls.

(** ** Faults of the disk *)

Lemma logsFaults_refl (env : Env) (w : World) : logsFaults env w w.
Proof.
  split; [lia|]. exists []. split; [now rewrite app_nil_r|].
  intros (n & Hn & _). lia.
Qed.

Lemma logsFaults_trans (env : Env) (w1 w2 w3 : World) :
  logsFaults env w1 w2 -> logsFaults env w2 w3 -> logsFaults env w1 w3.
Proof.
  intros (H12 & l1 & C1 & F1) (H23 & l2 & C2 & F2).
  split; [lia|]. exists (l1 ++ l2). split.
  - now rewrite C2, C1, app_assoc.
  - intros (n & Hn & Hf).
    destruct (Nat.lt_ge_cases n (writes w2)) as [Hlt|Hge].
    + destruct F1 as (e & He); [exists n; split; [lia|assumption]|].
      exists e. apply in_or_app. now left.
    + destruct F2 as (e & He); [exists n; split; [lia|assumption]|].
      exists e. apply in_or_app. now right.
Qed.

(** A step that neither writes nor prints. *)
Lemma logsFaults_silent (env : Env) (w w' : World) :
  writes w' = writes w -> console w' = console w -> logsFaults env w w'.
Proof.
  intros Hw Hc. split; [lia|]. exists []. split; [now rewrite app_nil_r|].
  intros (n & Hn & _). lia.
Qed.

Lemma logsFaults_print (env : Env) (w : World) (l : logLine) :
  logsFaults env w (print l w).
Proof.
  split; [simpl; lia|]. exists [l]. split; [reflexivity|].
  intros (n & Hn & _). simpl in Hn. lia.
Qed.

Lemma logsFaults_save (env : Env) (w : World) :
  logsFaults env w (afterSave env w).
Proof.
  unfold logsFaults, writeFails, afterSave, saveToDisk, try_catch, bind, gets,
    writeFileSync, console_log, console_error, modify.
  simpl. destruct (disk w); simpl.
  - destruct (writeFault env (writes w)) eqn:E1; simpl.
    + split; [lia|]. eexists. split; [reflexivity|].
      intros _. eexists. now left.
    + destruct (writeFault env (S (writes w))) eqn:E2; simpl.
      * split; [lia|]. eexists. split; [reflexivity|].
        intros _. eexists. now left.
      * split; [lia|]. eexists. split; [reflexivity|].
        intros (n & Hn & Hf). exfalso. apply Hf.
        assert (n = writes w \/ n = S (writes w)) as [->| ->] by lia;
          assumption.
  - split; [lia|]. eexists. split; [reflexivity|].
    intros _. eexists. now left.
Qed.

Section Faults.

Variable env : Env.

Lemma logsFaults_setProgress (w : World) u v x :
  logsFaults env w (afterSetProgress env w u v x).
Proof.
  unfold afterSetProgress.
  eapply logsFaults_trans; [|apply logsFaults_save].
  now apply logsFaults_silent.
Qed.

Lemma logsFaults_step (w : World) e : logsFaults env w (stepWorld env w e).
Proof.
  unfold stepWorld. destruct (snd e); [apply logsFaults_refl|].
  match goal with |- context [if ?b then _ else _] => destruct b end;
    [apply logsFaults_setProgress|apply logsFaults_refl].
Qed.

Lemma logsFaults_loop (es : list (string * list QueueItem)) :
  forall w, logsFaults env w (loopWorld env w es).
Proof.
  induction es as [|e es IH]; intro w; simpl; [apply logsFaults_refl|].
  eapply logsFaults_trans; [apply logsFaults_step|apply IH].
Qed.

Lemma logsFaults_cron (w : World) : logsFaults env w (afterCron env w).
Proof.
  unfold afterCron.
  eapply logsFaults_trans; [apply logsFaults_loop|].
  eapply logsFaults_trans; [|apply logsFaults_print].
  eapply logsFaults_trans; [|apply logsFaults_save].
  now apply logsFaults_silent.
Qed.

Lemma logsFaults_merge (w : World) : logsFaults env w (afterMerge env w).
Proof.
  unfold afterMerge. destruct (withinLimit env (queue w));
    [apply logsFaults_cron|apply logsFaults_loop].
Qed.

Lemma logsFaults_add (w : World) item : logsFaults env w (afterAdd env w item).
Proof.
  unfold afterAdd.
  eapply logsFaults_trans; [|apply logsFaults_save].
  now apply logsFaults_silent.
Qed.

Lemma logsFaults_reset (w : World) : logsFaults env w (afterReset env w).
Proof.
  unfold afterReset.
  eapply logsFaults_trans; [|apply logsFaults_print].
  eapply logsFaults_trans; [|apply logsFaults_save].
  now apply logsFaults_silent.
Qed.

Lemma logsFaults_logged (w w' : World) :
  logsFaults env w w' -> writeFails env w w' ->
  exists e, In (Error "Error saving" e) (console w').
Proof.
  intros (_ & l & C & F) Hf. destruct (F Hf) as (e & He).
  exists e. rewrite C. apply in_or_app. now right.
Qed.

End Faults.

(** ** The memory does not depend on the disk *)

Lemma sameMemory_refl (w : World) : sameMemory w w.
Proof. repeat split. Qed.

Section Memory.

Variables env1 env2 : Env.
Hypothesis same_clock : toISOString env1 = toISOString env2.
Hypothesis same_now : Date_now env1 = Date_now env2.
Hypothesis same_random : Math_random env1 = Math_random env2.

Lemma sameMemory_save (w1 w2 : World) :
  sameMemory w1 w2 -> sameMemory (afterSave env1 w1) (afterSave env2 w2).
Proof.
  intros (Hq & Hp & Ht). unfold sameMemory.
  now rewrite !queue_afterSave, !progress_afterSave, !ticks_afterSave.
Qed.

Lemma sameMemory_raises (w1 w2 : World) u v x :
  sameMemory w1 w2 -> raises w1 u v x = raises w2 u v x.
Proof. intros (_ & Hp & _). unfold raises. now rewrite Hp. Qed.

Lemma sameMemory_setProgress (w1 w2 : World) u v x :
  sameMemory w1 w2 ->
  sameMemory (afterSetProgress env1 w1 u v x) (afterSetProgress env2 w2 u v x).
Proof.
  intros (Hq & Hp & Ht). unfold afterSetProgress. apply sameMemory_save.
  unfold sameMemory, recordAt. simpl. now rewrite Hq, Hp, Ht, same_clock.
Qed.

Lemma sameMemory_step (w1 w2 : World) e :
  sameMemory w1 w2 ->
  sameMemory (stepWorld env1 w1 e) (stepWorld env2 w2 e) /\
  forall upd, stepCount w1 upd e = stepCount w2 upd e.
Proof.
  intro H. unfold stepWorld, stepCount. destruct (snd e); [now split|].
  rewrite (sameMemory_raises w1 w2 _ _ _ H).
  match goal with |- context [if ?b then _ else _] => destruct b end.
  - split; [now apply sameMemory_setProgress|reflexivity].
  - now split.
Qed.

Lemma sameMemory_loop (es : list (string * list QueueItem)) :
  forall w1 w2 upd,
    sameMemory w1 w2 ->
    sameMemory (loopWorld env1 w1 es) (loopWorld env2 w2 es) /\
    loopCount env1 w1 upd es = loopCount env2 w2 upd es.
Proof.
  induction es as [|e es IH]; intros w1 w2 upd H; simpl; [now split|].
  destruct (sameMemory_step w1 w2 e H) as (Hs & Hc).
  rewrite Hc. now apply IH.
Qed.

Lemma sameMemory_cron (w : World) :
  sameMemory (afterCron env1 w) (afterCron env2 w) /\
  loopCount env1 w 0 (queue w) = loopCount env2 w 0 (queue w).
Proof.
  destruct (sameMemory_loop (queue w) w w 0 (sameMemory_refl w))
    as ((Hq & Hp & Ht) & Hc).
  split; [|assumption]. unfold afterCron, sameMemory. simpl.
  rewrite !queue_afterSave, !progress_afterSave, !ticks_afterSave. simpl.
  auto.
Qed.

Hypothesis same_limit : argumentLimit env1 = argumentLimit env2.

Lemma withinLimit_same (q : JsMap.t (list QueueItem)) :
  withinLimit env1 q = withinLimit env2 q.
Proof. unfold withinLimit, fits. now rewrite same_limit. Qed.

Lemma turns_same (q : JsMap.t (list QueueItem)) : turns env1 q = turns env2 q.
Proof.
  induction q as [|e q IH]; simpl; [reflexivity|].
  unfold fits. rewrite same_limit, IH. reflexivity.
Qed.

(** Two environments with the same clock and the same engine give a merge
    the same outcome and the same memory. *)
Lemma sameMemory_merge (w : World) :
  sameMemory (afterMerge env1 w) (afterMerge env2 w) /\
  mergeOutcome env1 w = mergeOutcome env2 w.
Proof.
  unfold afterMerge, mergeOutcome. rewrite withinLimit_same, turns_same.
  destruct (withinLimit env2 (queue w)).
  - destruct (sameMemory_cron w) as (Hm & Hc). rewrite Hc. now split.
  - split; [|reflexivity].
    apply (sameMemory_loop (turns env2 (queue w)) w w 0 (sameMemory_refl w)).
Qed.

Lemma sameMemory_add (w : World) item :
  sameMemory (afterAdd env1 w item) (afterAdd env2 w item) /\
  itemAt env1 w item = itemAt env2 w item.
Proof.
  assert (itemAt env1 w item = itemAt env2 w item) as Hi
    by (unfold itemAt; now rewrite same_clock, same_now, same_random).
  split; [|assumption]. unfold afterAdd. apply sameMemory_save.
  unfold sameMemory. simpl. now rewrite Hi.
Qed.

Lemma sameMemory_reset (w : World) :
  sameMemory (afterReset env1 w) (afterReset env2 w).
Proof.
  unfold afterReset, sameMemory. simpl.
  now rewrite !queue_afterSave, !progress_afterSave, !ticks_afterSave.
Qed.

End Memory.

(** ** More on splitting *)


(** ** Keys with exactly one hyphen

    These are the keys of pairs whose ids have no hyphen; on them the split
    of [processCronJob] gives the pair back and the merge rule can be read
    off the committed table. *)

Lemma split_tail_length (s : string) : length (snd (split s)) = hyphens s.
Proof.
  induction s as [|c s IH]; simpl; [reflexivity|].
  destruct (split s) as [h t]. simpl in *.
  destruct (isHyphen c); simpl; now rewrite IH.
Qed.

Lemma key_of_destructure (key : string) :
  hyphens key = 1 ->
  key_of (fst (destructure key)) (snd (destructure key)) = key.
Proof.
  intro H1. unfold destructure.
  pose proof (split_tail_length key) as Hlen.
  pose proof (join_split key) as Hjoin.
  destruct (split key) as [h t]. simpl in *.
  destruct t as [|x [|y t]]; simpl in *; try lia.
  exact Hjoin.
Qed.

Section PlainKeys.

Variable env : Env.

Lemma loopWorld_app (l1 l2 : list (string * list QueueItem)) :
  forall w, loopWorld env w (l1 ++ l2) = loopWorld env (loopWorld env w l1) l2.
Proof. induction l1 as [|e l1 IH]; intro w; simpl; [reflexivity|apply IH]. Qed.

(** The turn of another one-hyphen key leaves the record of [key] alone. *)
Lemma progress_step_other_key (w : World) e key :
  hyphens (fst e) = 1 -> fst e <> key ->
  JsMap.get (progress (stepWorld env w e)) key = JsMap.get (progress w) key.
Proof.
  intros H1 Hne. unfold stepWorld. destruct (snd e); [reflexivity|].
  match goal with |- context [if ?b then _ else _] => destruct b end;
    [|reflexivity].
  rewrite progress_afterSetProgress, (key_of_destructure _ H1).
  apply get_set_other. congruence.
Qed.

Lemma progress_loop_other_keys (es : list (string * list QueueItem)) key :
  Forall (fun k => hyphens k = 1) (JsMap.keys es) ->
  ~ In key (JsMap.keys es) ->
  forall w, JsMap.get (progress (loopWorld env w es)) key = JsMap.get (progress w) key.
Proof.
  induction es as [|e es IH]; intros Hone Hnot w; simpl; [reflexivity|].
  inversion Hone as [|k ks Hk Hks]; subst. simpl in Hnot.
  rewrite IH by tauto. apply progress_step_other_key; tauto.
Qed.

Lemma progress_step_own_key (w : World) key item items :
  hyphens key = 1 ->
  mergedRecord (JsMap.get (progress w) key) (item :: items)
    (JsMap.get (progress (stepWorld env w (key, item :: items))) key).
Proof.
  intro H1. unfold stepWorld, mergedRecord, raises. cbn [fst snd].
  rewrite (key_of_destructure _ H1).
  destruct (JsMap.get (progress w) key) as [cur|] eqn:E.
  - destruct (gt _ (pr_furthestSeconds cur)); [|exact E].
    rewrite progress_afterSetProgress, (key_of_destructure _ H1), get_set_same.
    eexists. split; reflexivity.
  - rewrite progress_afterSetProgress, (key_of_destructure _ H1), get_set_same.
    eexists. split; reflexivity.
Qed.

(** With ids free of hyphens a merge that returns has followed the rule of
    the specification on every key that has pending samples. *)
Lemma merge_rule_on_plain_keys (w : World) key item items :
  NoDup (JsMap.keys (queue w)) ->
  Forall (fun k => hyphens k = 1) (JsMap.keys (queue w)) ->
  In (key, item :: items) (queue w) ->
  mergedRecord (JsMap.get (progress w) key) (item :: items)
    (JsMap.get (progress (afterCron env w)) key).
Proof.
  intros Hnd Hone Hin. rewrite progress_afterCron.
  destruct (in_split _ _ Hin) as (l1 & l2 & Hq). rewrite Hq in *.
  unfold JsMap.keys in Hnd, Hone. rewrite map_app in Hnd, Hone. simpl in Hnd, Hone.
  apply NoDup_remove_2 in Hnd.
  apply Forall_app in Hone. destruct Hone as (Hone1 & Hone2).
  inversion Hone2 as [|k ks Hk Hone2']; subst.
  rewrite loopWorld_app. simpl.
  rewrite (progress_loop_other_keys l2 key Hone2')
    by (intro Hc; apply Hnd; apply in_or_app; now right).
  rewrite <- (progress_loop_other_keys l1 key Hone1 (fun Hc => Hnd (in_or_app _ _ _ (or_introl Hc))) w).
  now apply progress_step_own_key.
Qed.

End PlainKeys.

(** ** What the routes can commit *)

Section Routes.

Variable env : Env.

Lemma perform_routed_elsewhere (c : call) (w : World) (k : string) :
  routed c = true ->
  hyphens k <> 1 ->
  JsMap.get (progress w) k = None ->
  JsMap.get (progress (snd (perform env c w))) k = None.
Proof.
  destruct c; simpl; intros Hc Hk Hnone; try discriminate; try assumption.
  - erewrite bind_returned by apply addToQueue_returns. simpl.
    now rewrite progress_afterAdd.
  - unfold bind. rewrite processCronJob_runs.
    destruct (mergeOutcome env w); simpl; now rewrite progress_merge_elsewhere.
  - rewrite reset_returns. unfold afterReset. simpl.
    now rewrite progress_afterSave.
Qed.

(** Starting without a record under a key with several hyphens, the calls
    that the routes make never put one there, whether they return or
    throw. *)
Lemma performAll_routed_elsewhere (cs : list call) (k : string) :
  Forall (fun c => routed c = true) cs ->
  hyphens k <> 1 ->
  forall w,
    JsMap.get (progress w) k = None ->
    JsMap.get (progress (snd (performAll env cs w))) k = None.
Proof.
  intros Hcs Hk w Hnone.
  apply (performAll_keeps env
           (fun w w' => JsMap.get (progress w) k = None ->
                        JsMap.get (progress w') k = None)
           (fun c => routed c = true)); auto.
  intros c w0 Hc H0. now apply perform_routed_elsewhere.
Qed.

End Routes.

(** ** The examples of the specification, on ids without hyphens *)

Example max_selection :
  let enqueue x := AddToQueue (mkQueueInput "v" "u" (Finite x)) in
  let w := snd (performAll quietEnv [enqueue 5%Q; enqueue 12%Q; enqueue 3%Q] freshWorld) in
  fst (processCronJob quietEnv w) = Returned (mkCronResult 1 0) /\
  option_map pr_furthestSeconds
    (JsMap.get (progress (snd (processCronJob quietEnv w))) "u-v")
    = Some (Finite 12).
Proof. vm_compute. split; reflexivity. Qed.

Example no_raise_on_lower_candidate :
  let enqueue x := AddToQueue (mkQueueInput "v" "u" (Finite x)) in
  let w50 := snd (performAll quietEnv [enqueue 50%Q; ProcessCronJob] freshWorld) in
  let w := snd (performAll quietEnv [enqueue 10%Q; enqueue 20%Q] w50) in
  fst (processCronJob quietEnv w) = Returned (mkCronResult 0 0) /\
  JsMap.get (progress (snd (processCronJob quietEnv w))) "u-v"
    = JsMap.get (progress w50) "u-v" /\
  option_map pr_furthestSeconds (JsMap.get (progress w50) "u-v") = Some (Finite 50).
Proof. vm_compute. repeat split; reflexivity. Qed.

(** Two keys that split into the same pair: the count of raised keys
    depends on the order in which the queue holds them. *)
Example raised_count_depends_on_order :
  let enqueue v x := AddToQueue (mkQueueInput v "a" (Finite x)) in
  let w1 := snd (performAll quietEnv [enqueue "b-c" 5%Q; enqueue "b-d" 10%Q] freshWorld) in
  let w2 := snd (performAll quietEnv [enqueue "b-d" 10%Q; enqueue "b-c" 5%Q] freshWorld) in
  fst (processCronJob quietEnv w1) = Returned (mkCronResult 2 0) /\
  fst (processCronJob quietEnv w2) = Returned (mkCronResult 1 0).
Proof. vm_compute. split; reflexivity. Qed.

(** * Further lemmas *)

(** ** Keys of a map *)

Lemma get_None_keys {V} (m : JsMap.t V) (k : string) :
  JsMap.get m k = None <-> ~ In k (JsMap.keys m).
Proof.
  induction m as [|[k' v'] m IH]; simpl.
  - tauto.
  - destruct (String.eqb k k') eqn:E.
    + apply String.eqb_eq in E. subst. split; [discriminate|]. tauto.
    + apply String.eqb_neq in E. rewrite IH. split; intro H.
      * intros [Heq|Hin]; [congruence|tauto].
      * tauto.
Qed.

Lemma set_absent {V} (m : JsMap.t V) (k : string) (v : V) :
  ~ In k (JsMap.keys m) -> JsMap.set m k v = m ++ [(k, v)].
Proof.
  induction m as [|[k' v'] m IH]; simpl; intro H; [reflexivity|].
  destruct (String.eqb k k') eqn:E.
  - apply String.eqb_eq in E. subst. tauto.
  - rewrite IH by tauto. reflexivity.
Qed.

Lemma keys_set_present {V} (m : JsMap.t V) (k : string) (v : V) :
  In k (JsMap.keys m) -> JsMap.keys (JsMap.set m k v) = JsMap.keys m.
Proof.
  induction m as [|[k' v'] m IH]; simpl; intro H; [contradiction|].
  destruct (String.eqb k k') eqn:E; simpl; [reflexivity|].
  apply String.eqb_neq in E. f_equal. apply IH.
  destruct H as [Heq|Hin]; [congruence|assumption].
Qed.

Lemma keys_set {V} (m : JsMap.t V) (k : string) (v : V) :
  JsMap.keys (JsMap.set m k v) =
  if in_dec string_dec k (JsMap.keys m) then JsMap.keys m
  else JsMap.keys m ++ [k].
Proof.
  destruct (in_dec string_dec k (JsMap.keys m)) as [Hin|Hout].
  - now apply keys_set_present.
  - rewrite (set_absent m k v Hout). unfold JsMap.keys.
    now rewrite map_app.
Qed.

Lemma NoDup_keys_set {V} (m : JsMap.t V) (k : string) (v : V) :
  NoDup (JsMap.keys m) -> NoDup (JsMap.keys (JsMap.set m k v)).
Proof.
  intro H. rewrite keys_set.
  destruct (in_dec string_dec k (JsMap.keys m)) as [Hin|Hout]; [assumption|].
  apply NoDup_app; [assumption|repeat constructor; intros []|].
  intros x Hx [<-|[]]. contradiction.
Qed.

Lemma get_delete_other {V} (m : JsMap.t V) (k k' : string) :
  k' <> k -> JsMap.get (JsMap.delete m k) k' = JsMap.get m k'.
Proof.
  intro Hne. induction m as [|[k0 v0] m IH]; simpl; [reflexivity|].
  destruct (String.eqb k k0) eqn:E; simpl.
  - apply String.eqb_eq in E. subst k0.
    destruct (String.eqb k' k) eqn:E'; [|reflexivity].
    apply String.eqb_eq in E'. contradiction.
  - now rewrite IH.
Qed.

Lemma get_delete_same {V} (m : JsMap.t V) (k : string) :
  NoDup (JsMap.keys m) -> JsMap.get (JsMap.delete m k) k = None.
Proof.
  induction m as [|[k' v'] m IH]; simpl; intro H; [reflexivity|].
  inversion H as [|? ? Hnot Hrest]; subst.
  destruct (String.eqb k k') eqn:E; simpl.
  - apply String.eqb_eq in E. subst k'. now apply get_None_keys.
  - rewrite E. now apply IH.
Qed.

Lemma fold_set_fresh {V} (es : list (string * V)) :
  forall acc,
    NoDup (JsMap.keys (acc ++ es)) ->
    fold_left (fun m e => JsMap.set m (fst e) (snd e)) es acc = acc ++ es.
Proof.
  induction es as [|[k v] es IH]; intros acc H; simpl.
  - now rewrite app_nil_r.
  - assert (~ In k (JsMap.keys acc)) as Hout.
    { unfold JsMap.keys in *. rewrite map_app in H. simpl in H.
      apply NoDup_remove_2 in H. intro Hin. apply H. apply in_or_app. now left. }
    rewrite (set_absent acc k v Hout).
    rewrite IH; rewrite <- app_assoc; simpl; [reflexivity|assumption].
Qed.

(** When the entries have each key once, [new Map(entries)] holds them in
    their order. *)
Lemma of_entries_unique {V} (es : list (string * V)) :
  NoDup (JsMap.keys es) -> JsMap.of_entries es = es.
Proof. intro H. unfold JsMap.of_entries. now rewrite fold_set_fresh. Qed.

(** ** Clearing the queue *)

Lemma clearQueue_returns (env : Env) (w : World) :
  clearQueue env w = (Returned tt, afterSave env (set_queue JsMap.empty w)).
Proof. unfold clearQueue, bind, modify. now rewrite saveToDisk_returns. Qed.

Lemma clearQueueForKey_returns (env : Env) (w : World) (userId videoId : string) :
  clearQueueForKey env userId videoId w =
  (Returned tt,
   afterSave env
     (set_queue (JsMap.delete (queue w) (key_of userId (Some videoId))) w)).
Proof.
  unfold clearQueueForKey, bind, gets, modify. now rewrite saveToDisk_returns.
Qed.

Section Loading.

Variable env : Env.

(** ** The constructor *)

(** The memory after [loadFromDisk] over a data directory [d]. *)
Lemma loadFromDisk_memory (w : World) (d : DataDir) :
  disk w = Some d ->
  exists w',
    loadFromDisk env w = (Returned tt, w') /\
    disk w' = Some d /\
    (if deserializationFails env d
     then queue w' = [] /\ progress w' = [] /\
          exists e, In (Error "Error loading from disk" e) (console w')
     else queue w' = match queueFile d with
                     | Absent => queue w
                     | f => loaded (parse_queue env) f
                     end /\
          progress w' = match progressFile d with
                        | Absent => progress w
                        | f => loaded (parse_progress env) f
                        end /\
          filter isError (console w') = filter isError (console w)).
Proof.
  intro Hd. destruct w as [q p dk tk wr co]. simpl in Hd. subst dk.
  destruct d as [qf pf]. unfold deserializationFails. simpl.
  unfold loadFromDisk, try_catch, bind, modify, existsSync, readFileSync,
    when, gets, console_log, console_error, throw, ret.
  simpl.
  destruct qf as [| |qdata]; simpl;
    [ | | destruct (parse_queue env qdata) as [qes|]; simpl ];
    (destruct pf as [| |pdata]; simpl;
     [ | | destruct (parse_progress env pdata) as [pes|]; simpl ]);
    (eexists; split; [reflexivity|]; simpl; split; [reflexivity|];
     repeat split;
     try (eexists; apply in_or_app; right; left; reflexivity);
     repeat (rewrite filter_app; simpl); rewrite ?app_nil_r; reflexivity).
Qed.

End Loading.

Section Constructor.

Variable env : Env.

Lemma new_StorageService_present (w : World) (d : DataDir) :
  disk w = Some d ->
  new_StorageService env w =
  loadFromDisk env (set_progress JsMap.empty (set_queue JsMap.empty w)).
Proof.
  intro Hd.
  unfold new_StorageService, ensureDataDirectory, existsSync_dataPath, bind,
    modify, gets, ret.
  simpl. rewrite Hd.
  destruct (loadFromDisk env _) as [[a|e] w']; reflexivity.
Qed.

End Constructor.

(** ** Counting the pending samples *)

Lemma pendingSamples_set (m : JsMap.t (list QueueItem)) (k : string) (x : QueueItem) :
  pendingSamples
    (JsMap.set m k (match JsMap.get m k with Some l => l | None => [] end ++ [x]))
  = S (pendingSamples m).
Proof.
  unfold pendingSamples, JsMap.values.
  induction m as [|[k' v'] m IH]; simpl; [reflexivity|].
  destruct (String.eqb k k') eqn:E; simpl.
  - rewrite !length_app. simpl. lia.
  - rewrite !length_app. rewrite IH. lia.
Qed.

Lemma size_set {V} (m : JsMap.t V) (k : string) (v : V) :
  JsMap.size (JsMap.set m k v) =
  match JsMap.get m k with Some _ => JsMap.size m | None => S (JsMap.size m) end.
Proof.
  unfold JsMap.size. induction m as [|[k' v'] m IH]; simpl; [reflexivity|].
  destruct (String.eqb k k') eqn:E; simpl; [reflexivity|].
  rewrite IH. now destruct (JsMap.get m k).
Qed.

(** ** The greatest sample *)

Lemma not_gt_trans (a b c : number) :
  b <> NaN -> gt a b = false -> gt b c = false -> gt a c = false.
Proof.
  intros Hb Hab Hbc. destruct a, b, c; simpl in *; try congruence.
  destruct (Qlt_bool q1 q) eqn:E; [|reflexivity].
  apply Qlt_bool_iff in E.
  assert (~ (q0 < q)%Q) as H1
    by (intro H; apply Qlt_bool_iff in H; congruence).
  assert (~ (q1 < q0)%Q) as H2
    by (intro H; apply Qlt_bool_iff in H; congruence).
  apply Qnot_lt_le in H1, H2. exfalso.
  exact (Qlt_not_le _ _ E (Qle_trans _ _ _ H1 H2)).
Qed.

Lemma Math_max_from_NaN (xs : list number) :
  In NaN xs -> forall h, Math_max_from h xs = NaN.
Proof.
  induction xs as [|x xs IH]; intros Hin h; [contradiction|].
  destruct Hin as [->|Hin]; [reflexivity|].
  destruct x; simpl; auto.
Qed.

Lemma Math_max_from_greatest (xs : list number) :
  nanFree xs ->
  forall h,
    h <> NaN ->
    let m := Math_max_from h xs in
    m <> NaN /\ (m = h \/ In m xs) /\ gt h m = false /\
    forall x, In x xs -> gt x m = false.
Proof.
  unfold nanFree. induction xs as [|x xs IH]; intros Hfree h Hh; simpl.
  - split; [exact Hh|]. split; [now left|]. split; [apply gt_irrefl|].
    intros x [].
  - assert (x <> NaN) as Hx by (intro E; apply Hfree; now left).
    assert (~ In NaN xs) as Hfree' by (intro E; apply Hfree; now right).
    assert (Math_max_from h (x :: xs)
            = Math_max_from (if gt x h then x else h) xs) as Heq
      by (destruct x; [congruence|reflexivity..]).
    simpl in Heq. rewrite Heq. clear Heq.
    destruct (gt x h) eqn:E.
    + destruct (IH Hfree' x Hx) as (Hm & Hin & Hxm & Hall).
      split; [exact Hm|]. split; [destruct Hin; auto|]. split.
      * apply (not_gt_trans h x _ Hx); [now apply gt_asym|exact Hxm].
      * intros y [<-|Hy]; auto.
    + destruct (IH Hfree' h Hh) as (Hm & Hin & Hhm & Hall).
      split; [exact Hm|]. split; [destruct Hin; auto|]. split; [exact Hhm|].
      intros y [Hy|Hy]; [subst y|auto].
      apply (not_gt_trans x h _ Hh); assumption.
Qed.

Lemma gt_NegInfinity (x : number) :
  x <> NaN -> gt x NegInfinity = false -> x = NegInfinity.
Proof. destruct x; simpl; congruence. Qed.

(** [Math.max] of a non-empty list without [NaN] is one of its members and
    no member is greater. *)
Lemma Math_max_greatest (x : number) (xs : list number) :
  nanFree (x :: xs) ->
  let m := Math_max (x :: xs) in
  m <> NaN /\ In m (x :: xs) /\ forall y, In y (x :: xs) -> gt y m = false.
Proof.
  intro Hfree.
  destruct (Math_max_from_greatest (x :: xs) Hfree NegInfinity)
    as (Hm & Hin & _ & Hall); [discriminate|].
  fold (Math_max (x :: xs)) in *. cbv zeta.
  split; [exact Hm|]. split; [|exact Hall].
  destruct Hin as [Heq|Hin]; [|exact Hin].
  assert (x <> NaN) as Hx by (intro E; apply Hfree; now left).
  pose proof (Hall x (or_introl eq_refl)) as Hgt. rewrite Heq in Hgt.
  rewrite Heq. left. now apply gt_NegInfinity.
Qed.

(** ** Counting the raised keys *)

Lemma loopCount_bound (env : Env) (es : list (string * list QueueItem)) :
  forall w upd, loopCount env w upd es <= upd + nonEmptyBuckets es.
Proof.
  unfold nonEmptyBuckets.
  induction es as [|[key items] es IH]; intros w upd; simpl; [lia|].
  specialize (IH (stepWorld env w (key, items)) (stepCount w upd (key, items))).
  unfold stepCount in *. cbn [fst snd] in *.
  destruct items as [|i items]; simpl in *; [exact IH|].
  destruct (raises w _ _ _); lia.
Qed.

Lemma nonEmptyBuckets_size (q : JsMap.t (list QueueItem)) :
  nonEmptyBuckets q <= JsMap.size q.
Proof. unfold nonEmptyBuckets, JsMap.size. apply filter_length_le. Qed.

(** ** Keys that a merge leaves alone *)

Lemma progress_step_untouched (env : Env) (w : World) e k :
  (forall item items, snd e = item :: items -> committedKey (fst e) <> k) ->
  JsMap.get (progress (stepWorld env w e)) k = JsMap.get (progress w) k.
Proof.
  intro H. unfold stepWorld. destruct (snd e) as [|i items] eqn:E; [reflexivity|].
  match goal with |- context [if ?b then _ else _] => destruct b end;
    [|reflexivity].
  rewrite progress_afterSetProgress. apply get_set_other.
  intro Heq. apply (H i items eq_refl). unfold committedKey. now rewrite Heq.
Qed.

Lemma progress_loop_untouched (env : Env) (es : list (string * list QueueItem)) k :
  (forall key item items, In (key, item :: items) es -> committedKey key <> k) ->
  forall w, JsMap.get (progress (loopWorld env w es)) k = JsMap.get (progress w) k.
Proof.
  induction es as [|[key its] es IH]; intros H w; simpl; [reflexivity|].
  rewrite IH by (intros; eapply H; right; eassumption).
  apply progress_step_untouched. simpl. intros item items ->.
  apply (H key item items). now left.
Qed.

(** ** Keys of pairs *)

Lemma append_inv_head (u s1 s2 : string) :
  (u ++ s1)%string = (u ++ s2)%string -> s1 = s2.
Proof.
  induction u as [|c u IH]; simpl; intro H; [exact H|].
  injection H as H. now apply IH.
Qed.

Lemma key_of_inj_plain_user (u1 u2 v1 v2 : string) :
  hyphens u1 = 0 -> hyphens u2 = 0 ->
  key_of u1 (Some v1) = key_of u2 (Some v2) ->
  u1 = u2 /\ v1 = v2.
Proof.
  intros H1 H2 Heq. unfold key_of in Heq. simpl show in Heq.
  change ("-" ++ v1)%string with (String "-"%char v1) in Heq.
  change ("-" ++ v2)%string with (String "-"%char v2) in Heq.
  pose proof (f_equal split Heq) as Hs.
  rewrite (split_app_hyphen u1 v1 H1), (split_app_hyphen u2 v2 H2) in Hs.
  injection Hs as Hu _ _. subst u2. split; [reflexivity|].
  apply append_inv_head in Heq. now injection Heq.
Qed.

(** ** The example worlds are reached by calls *)

Example pendingWorld_reached :
  snd (performAll quietEnv
         [AddToQueue (mkQueueInput "v" "u" (Finite 5));
          AddToQueue (mkQueueInput "v" "u" (Finite 12));
          AddToQueue (mkQueueInput "v" "u" (Finite 3))]
         committedWorld) = pendingWorld.
Proof. vm_compute. reflexivity. Qed.

Example nanWorld_reached :
  snd (performAll quietEnv
         [AddToQueue (mkQueueInput "v" "u" NaN); ProcessCronJob] freshWorld)
  = nanWorld.
Proof. vm_compute. reflexivity. Qed.

(** ** Room in the engine *)

Lemma bucket_le_pending (q : JsMap.t (list QueueItem)) e :
  In e q -> length (snd e) <= pendingSamples q.
Proof.
  unfold pendingSamples, JsMap.values.
  induction q as [|e0 q IH]; simpl; [tauto|].
  rewrite length_app. intros [->|Hin]; [lia|].
  specialize (IH Hin). lia.
Qed.

Lemma withinLimit_room (env : Env) (w : World) (n : nat) :
  roomFor env w n -> withinLimit env (queue w) = true.
Proof.
  unfold roomFor, withinLimit, fits. intro H. apply forallb_forall.
  intros e He. apply N.leb_le. pose proof (bucket_le_pending _ _ He). lia.
Qed.

Lemma pendingSamples_delete (q : JsMap.t (list QueueItem)) (k : string) :
  pendingSamples (JsMap.delete q k) <= pendingSamples q.
Proof.
  unfold pendingSamples, JsMap.values.
  induction q as [|[k' v'] q IH]; simpl; [lia|].
  destruct (String.eqb k k'); simpl; rewrite ?length_app; lia.
Qed.

Section Room.

Variable env : Env.

Lemma queue_afterMerge (w : World) :
  queue (afterMerge env w) = [] \/ queue (afterMerge env w) = queue w.
Proof.
  unfold afterMerge. destruct (withinLimit env (queue w)).
  - left. apply queue_afterCron.
  - right. apply queue_loopWorld.
Qed.

(** A call adds at most one pending sample. *)
Lemma pending_perform (c : call) (w : World) :
  pendingSamples (queue (snd (perform env c w))) <= S (pendingSamples (queue w)).
Proof.
  destruct c; simpl; try lia.
  - erewrite bind_returned by apply addToQueue_returns. simpl.
    rewrite queue_afterAdd. unfold bucket. rewrite pendingSamples_set. lia.
  - rewrite clearQueue_returns. simpl. rewrite queue_afterSave. simpl.
    unfold pendingSamples. simpl. lia.
  - rewrite clearQueueForKey_returns. simpl. rewrite queue_afterSave. simpl.
    pose proof (pendingSamples_delete (queue w) (key_of userId (Some videoId))).
    lia.
  - erewrite bind_returned by apply setProgress_returns. simpl.
    rewrite queue_afterSetProgress. lia.
  - unfold bind. rewrite updateProgressIfHigher_returns.
    destruct (raises w userId videoId seconds); simpl;
      rewrite ?queue_afterSetProgress; lia.
  - unfold bind. rewrite processCronJob_runs.
    destruct (queue_afterMerge w) as [H|H];
      destruct (mergeOutcome env w); simpl; rewrite H;
      unfold pendingSamples; simpl; lia.
  - rewrite reset_returns. simpl. unfold afterReset. simpl.
    rewrite queue_afterSave. simpl. unfold pendingSamples. simpl. lia.
Qed.

(** Only the merge can throw, and only on a bucket that cannot be spread. *)
Lemma perform_returns (c : call) (w : World) :
  withinLimit env (queue w) = true -> fst (perform env c w) = Returned tt.
Proof.
  intro H. destruct c; simpl; try reflexivity.
  - erewrite bind_returned by apply addToQueue_returns. reflexivity.
  - now rewrite clearQueue_returns.
  - now rewrite clearQueueForKey_returns.
  - erewrite bind_returned by apply setProgress_returns. reflexivity.
  - unfold bind. rewrite updateProgressIfHigher_returns.
    now destruct (raises w userId videoId seconds).
  - erewrite bind_returned by (apply processCronJob_returns; exact H).
    reflexivity.
  - now rewrite reset_returns.
Qed.

(** With room for one sample per call, a sequence of calls runs to its
    end. *)
Lemma performAll_returns (cs : list call) :
  forall w, roomFor env w (length cs) -> fst (performAll env cs w) = Returned tt.
Proof.
  induction cs as [|c cs IH]; intros w Hroom; simpl; [reflexivity|].
  pose proof (perform_returns c w (withinLimit_room env w _ Hroom)) as Hret.
  pose proof (pending_perform c w) as Hpend.
  unfold bind. destruct (perform env c w) as [[[]|e] w1]; simpl in *;
    [|discriminate].
  apply IH. unfold roomFor in *. simpl in Hroom. lia.
Qed.

End Room.

(** ** The record that a merge leaves for a bucket *)


(** ** The first two segments of a key *)


Lemma Math_max_single (x : number) : Math_max [x] = x.
Proof. destruct x; reflexivity. Qed.

(** ** Numbers and zero *)

Lemma gt_zero_nonneg (x : number) : gt x (Finite 0) = true -> nonneg x = true.
Proof.
  destruct x as [| |q|]; simpl; try discriminate; [|reflexivity].
  intro H. apply Qlt_bool_iff in H. apply Qle_bool_iff. now apply Qlt_le_weak.
Qed.

(** [x || 0] is [x] for a number above or below zero, and 0 for the others,
    which are zero and [NaN]. *)
Lemma or_zero_cases (x : number) :
  (gt x (Finite 0) = true \/ gt (Finite 0) x = true -> or_zero x = x) /\
  (gt x (Finite 0) = false -> gt (Finite 0) x = false -> or_zero x = Finite 0).
Proof.
  destruct x as [| |q|]; simpl; split; try reflexivity; try discriminate;
    try (intros [H|H]; discriminate).
  - intros Hne. destruct (Qeq_bool q 0) eqn:E; [|reflexivity].
    apply Qeq_bool_iff in E. exfalso.
    destruct Hne as [H|H]; apply Qlt_bool_iff in H; rewrite E in H;
      exact (Qlt_irrefl _ H).
  - intros H1 H2. destruct (Qeq_bool q 0) eqn:E; [reflexivity|]. exfalso.
    assert (~ (0 < q)%Q) as N1
      by (intro H; apply Qlt_bool_iff in H; congruence).
    assert (~ (q < 0)%Q) as N2
      by (intro H; apply Qlt_bool_iff in H; congruence).
    apply Qnot_lt_le in N1, N2.
    assert (q == 0)%Q as Hz by now apply Qle_antisym.
    apply Qeq_bool_iff in Hz. congruence.
Qed.

(** * The claims *)

(** ** C1: the composite key *)

(** C1. The key [`${userId}-${videoId}`] is not injective: the distinct
    pairs (a-b, c) and (a, b-c) get the same key, so a sample enqueued for
    the first is served as a pending sample of the second; and a sample
    enqueued for (a, b-c) is committed by the merge under the pair (a, b),
    for which nothing was enqueued. *)
Theorem key_of_collides :
  ("a-b", "c") <> ("a", "b-c") /\
  key_of "a-b" (Some "c") = key_of "a" (Some "b-c") /\
  (let w := snd (addToQueue quietEnv (mkQueueInput "c" "a-b" (Finite 7)) freshWorld) in
   fst (getQueueItems "a" "b-c" freshWorld) = Returned [] /\
   fst (getQueueItems "a" "b-c" w) =
     Returned [itemAt quietEnv freshWorld (mkQueueInput "c" "a-b" (Finite 7))]) /\
  (let w := snd (addToQueue quietEnv (mkQueueInput "b-c" "a" (Finite 10)) freshWorld) in
   let w' := snd (processCronJob quietEnv w) in
   fst (getProgress "a" "b" w) = Returned None /\
   option_map pr_furthestSeconds (JsMap.get (progress w') (key_of "a" (Some "b")))
     = Some (Finite 10)).
Proof.
  split; [discriminate|]. split; [reflexivity|].
  split; vm_compute; split; reflexivity.
Qed.

(** ** C2: the counts returned by the merge *)

(** In every state, a merge that returns returns [processed] equal to 0. *)
Lemma processCronJob_processed (env : Env) (w w' : World) (r : CronResult) :
  processCronJob env w = (Returned r, w') -> processed r = 0.
Proof.
  rewrite processCronJob_runs. unfold mergeOutcome.
  destruct (withinLimit env (queue w)); [|discriminate].
  intro H. injection H as <- _. reflexivity.
Qed.

(** C2. With one key holding one pending sample, [processCronJob] reports
    one raised key and zero scanned keys: [processed] is returned as it was
    initialised. *)
Theorem processCronJob_scans_nothing :
  JsMap.keys (queue readmeWorld) = ["test-user-1-yt-abc123"] /\
  fst (processCronJob quietEnv readmeWorld) = Returned (mkCronResult 1 0).
Proof. split; vm_compute; reflexivity. Qed.

(** ** C3: the committed value over time *)

(** C3, as stated, fails: [setProgress] is a public write path that puts the
    given value without comparing, so it replaces the committed 10 seconds
    of (u, v) by 5. *)
Lemma setProgress_lowers :
  let w' := snd (setProgress quietEnv "u" (Some "v") (Finite 5) committedWorld) in
  option_map pr_furthestSeconds (JsMap.get (progress committedWorld) "u-v")
    = Some (Finite 10) /\
  option_map pr_furthestSeconds (JsMap.get (progress w') "u-v")
    = Some (Finite 5) /\
  lt (Finite 5) (Finite 10) = true.
Proof. vm_compute. repeat split; reflexivity. Qed.

(** C3, amended. Along every sequence of calls of the public methods other
    than [setProgress] and [reset] (so: enqueueing, merging,
    [updateProgressIfHigher], clearing the queue and the reads), a record
    that is committed stays committed under its key, unchanged or with a
    strictly greater [furthestSeconds]; its value is never smaller than one
    seen before. This holds where the sequence ends, be it at its last call
    or at a merge that throws; and every call returns when the engine has
    room for one more sample per call. *)
Theorem committed_never_lowered (env : Env) (cs : list call) (w : World)
    (k : string) (r : ProgressRecord) :
  Forall (fun c => overwrites c = false) cs ->
  JsMap.get (progress w) k = Some r ->
  exists o w' r',
    performAll env cs w = (o, w') /\
    JsMap.get (progress w') k = Some r' /\
    (r' = r \/ gt (pr_furthestSeconds r') (pr_furthestSeconds r) = true) /\
    lt (pr_furthestSeconds r') (pr_furthestSeconds r) = false /\
    (roomFor env w (length cs) -> o = Returned tt).
Proof.
  intros Hcs Hr.
  pose proof (performAll_grows env cs Hcs w) as Hgrow.
  pose proof (performAll_returns env cs w) as Hret.
  destruct (performAll env cs w) as [o w'] eqn:Hrun. simpl in *.
  destruct (Hgrow k r Hr) as (r' & Hr' & Hcase).
  exists o, w', r'. repeat split; try assumption.
  exact (neverLowered_not_lt _ _ _ _ _ Hgrow Hr Hr').
Qed.

Lemma committed_never_lowered_witness :
  exists o w' r',
    performAll quietEnv
      [AddToQueue (mkQueueInput "v" "u" (Finite 5)); ProcessCronJob;
       GetProgress "u" "v"; AddToQueue (mkQueueInput "v" "u" (Finite 12));
       ProcessCronJob]
      committedWorld = (o, w') /\
    JsMap.get (progress w') "u-v" = Some r' /\
    (r' = mkProgressRecord (Some "v") "u" (Finite 10) "2024-01-01T00:00:00.000Z" \/
     gt (pr_furthestSeconds r') (Finite 10) = true) /\
    lt (pr_furthestSeconds r') (Finite 10) = false /\
    (roomFor quietEnv committedWorld 5 -> o = Returned tt).
Proof.
  apply (committed_never_lowered quietEnv
           [AddToQueue (mkQueueInput "v" "u" (Finite 5)); ProcessCronJob;
            GetProgress "u" "v"; AddToQueue (mkQueueInput "v" "u" (Finite 12));
            ProcessCronJob]
           committedWorld "u-v"
           (mkProgressRecord (Some "v") "u" (Finite 10) "2024-01-01T00:00:00.000Z")).
  - repeat constructor.
  - reflexivity.
Defined.

(** ** C4: a write that fails *)

(** C4, as stated, fails: on a disk where every write throws, enqueueing,
    merging and resetting all return normally; nothing is thrown to the
    caller. *)
Lemma failed_write_not_surfaced :
  let w1 := snd (addToQueue brokenDiskEnv readmeSample freshWorld) in
  writeFault brokenDiskEnv (writes freshWorld) = Some Absent /\
  fst (addToQueue brokenDiskEnv readmeSample freshWorld)
    = Returned (itemAt brokenDiskEnv freshWorld readmeSample) /\
  disk w1 = Some (mkDataDir Absent Absent) /\
  fst (processCronJob brokenDiskEnv w1) = Returned (mkCronResult 1 0) /\
  fst (reset brokenDiskEnv w1) = Returned tt.
Proof. vm_compute. repeat split; reflexivity. Qed.

Lemma swallowsFaults_intro {A} (op : Env -> M A) (env : Env) (w : World)
    (a : A) (after : Env -> World) :
  op env w = (Returned a, after env) ->
  op (withoutFaults env) w = (Returned a, after (withoutFaults env)) ->
  sameMemory (after env) (after (withoutFaults env)) ->
  logsFaults env w (after env) ->
  swallowsFaults op env w.
Proof.
  intros Hrun Hcalm Hmem Hlog. unfold swallowsFaults.
  rewrite Hrun, Hcalm. simpl. repeat split; try apply Hmem.
  - now exists a.
  - now apply logsFaults_logged.
Qed.

(** C4, amended. When a write fails in [saveToDisk] after enqueueing,
    merging or resetting, the error is caught there and printed on the
    console; the method gives its caller the outcome it gives when the
    writes succeed, and the memory is the one it builds when the writes
    succeed: nothing is rolled back. That outcome is a normal return for
    enqueueing and resetting, and for merging whenever every bucket can be
    spread into one call. *)
Theorem failed_write_is_logged (env : Env) (w : World) :
  (forall item, swallowsFaults (fun e => addToQueue e item) env w) /\
  absorbsFaults processCronJob env w /\
  (withinLimit env (queue w) = true -> swallowsFaults processCronJob env w) /\
  swallowsFaults reset env w.
Proof.
  split; [intro item|split; [|split]].
  - destruct (sameMemory_add env (withoutFaults env) eq_refl eq_refl eq_refl w item)
      as (Hmem & Hitem).
    apply (swallowsFaults_intro _ env w (itemAt env w item)
             (fun e => afterAdd e w item)).
    + apply addToQueue_returns.
    + rewrite Hitem. apply addToQueue_returns.
    + exact Hmem.
    + apply logsFaults_add.
  - destruct (sameMemory_merge env (withoutFaults env) eq_refl eq_refl w)
      as (Hmem & Hout).
    unfold absorbsFaults. rewrite !processCronJob_runs. simpl.
    split; [exact Hout|]. split; [exact Hmem|].
    apply logsFaults_logged. apply logsFaults_merge.
  - intro Hfit.
    destruct (sameMemory_cron env (withoutFaults env) eq_refl w) as (Hmem & Hn).
    apply (swallowsFaults_intro _ env w
             (mkCronResult (loopCount env w 0 (queue w)) 0)
             (fun e => afterCron e w)).
    + now apply processCronJob_returns.
    + rewrite Hn. apply processCronJob_returns.
      now rewrite <- (withinLimit_same env (withoutFaults env) eq_refl).
    + exact Hmem.
    + apply logsFaults_cron.
  - apply (swallowsFaults_intro _ env w tt (fun e => afterReset e w)).
    + apply reset_returns.
    + apply reset_returns.
    + apply sameMemory_reset.
    + apply logsFaults_reset.
Qed.

Lemma failed_write_is_logged_witness :
  exists e,
    In (Error "Error saving" e)
       (console (snd (addToQueue brokenDiskEnv readmeSample freshWorld))).
Proof.
  destruct (failed_write_is_logged brokenDiskEnv freshWorld) as (Hadd & _ & _).
  destruct (Hadd readmeSample) as (_ & _ & _ & Hlog).
  apply Hlog. exists 0. split; [vm_compute; lia|discriminate].
Defined.

(** ** C5: what [addToQueue] accepts *)

Lemma bucket_afterAdd (env : Env) (w : World) (item : QueueInput) :
  let key := key_of (in_userId item) (Some (in_videoId item)) in
  bucket (afterAdd env w item) key = bucket w key ++ [itemAt env w item].
Proof.
  intro key. unfold bucket at 1. rewrite queue_afterAdd.
  fold key. now rewrite get_set_same.
Qed.

(** C5, as stated, fails: the store takes a negative sample, and a [NaN]
    one, returns the item and has it in the queue and on disk. *)
Lemma addToQueue_takes_negative :
  let neg := mkQueueInput "v" "u" (Finite (-1)) in
  let nan := mkQueueInput "v" "u" NaN in
  fst (addToQueue quietEnv neg freshWorld) = Returned (itemAt quietEnv freshWorld neg) /\
  bucket (snd (addToQueue quietEnv neg freshWorld)) "u-v" = [itemAt quietEnv freshWorld neg] /\
  writes (snd (addToQueue quietEnv neg freshWorld)) = 2 /\
  nonneg (in_progressSeconds neg) = false /\
  fst (addToQueue quietEnv nan freshWorld) = Returned (itemAt quietEnv freshWorld nan) /\
  bucket (snd (addToQueue quietEnv nan freshWorld)) "u-v" = [itemAt quietEnv freshWorld nan] /\
  is_finite (in_progressSeconds nan) = false.
Proof. vm_compute. repeat split; reflexivity. Qed.

(** C5, amended. [addToQueue] checks nothing: for every number, negative and
    non-finite ones as well as every finite one from 0 upwards, it returns
    the new item carrying that number and appends it to the bucket of the
    pair; the committed table is not touched. *)
Theorem addToQueue_accepts_every_number (env : Env) (w : World) (item : QueueInput) :
  let key := key_of (in_userId item) (Some (in_videoId item)) in
  exists qi w',
    addToQueue env item w = (Returned qi, w') /\
    qi_progressSeconds qi = in_progressSeconds item /\
    qi_userId qi = in_userId item /\
    qi_videoId qi = in_videoId item /\
    bucket w' key = bucket w key ++ [qi] /\
    progress w' = progress w.
Proof.
  intro key. exists (itemAt env w item), (afterAdd env w item).
  rewrite addToQueue_returns. repeat split.
  - apply bucket_afterAdd.
  - apply progress_afterAdd.
Qed.

(** ** C6: merging twice *)




(** ** C7: the merge rule *)

(** C7. The key of the README sample has a pending sample of 42 seconds and
    no committed record, so the rule asks for a record of 42 seconds for
    that key; the merge counts one raised key but leaves the key without a
    record: the record is written for user [test], video [user], the first
    two segments of the key split at its hyphens. *)
Theorem merge_misses_hyphenated_key :
  let key := key_of "test-user-1" (Some "yt-abc123") in
  let w' := snd (processCronJob quietEnv readmeWorld) in
  map qi_progressSeconds (bucket readmeWorld key) = [Finite 42] /\
  Math_max (map qi_progressSeconds (bucket readmeWorld key)) = Finite 42 /\
  JsMap.get (progress readmeWorld) key = None /\
  fst (processCronJob quietEnv readmeWorld) = Returned (mkCronResult 1 0) /\
  JsMap.get (progress w') key = None /\
  JsMap.get (progress w') "test-user"
    = Some (mkProgressRecord (Some "user") "test" (Finite 42)
              "2024-01-01T00:00:00.000Z").
Proof. vm_compute. repeat split; reflexivity. Qed.

(** ** C8: the queue after a merge *)




(** ** C9: starting over files that cannot be loaded *)

(** C9. When the data directory is there and reading or parsing one of the
    two files throws, [new StorageService()] returns, both maps are empty,
    the error is on the console, and the reads answer as on an empty
    store. *)
Theorem corrupt_files_give_empty_store (env : Env) (w : World) (d : DataDir) :
  disk w = Some d ->
  deserializationFails env d = true ->
  exists w',
    new_StorageService env w = (Returned tt, w') /\
    queue w' = [] /\
    progress w' = [] /\
    (exists e, In (Error "Error loading from disk" e) (console w')) /\
    (forall userId videoId, getProgress userId videoId w' = (Returned None, w')) /\
    (forall userId videoId, getQueueItems userId videoId w' = (Returned [], w')) /\
    getStats env w' = (Returned (mkStats 0 0 0 (dataPath env)), w').
Proof.
  intros Hd Hfail. destruct w as [q p dk tk wr co]. simpl in Hd. subst dk.
  destruct d as [qf pf]. unfold deserializationFails in Hfail. simpl in Hfail.
  unfold new_StorageService, ensureDataDirectory, loadFromDisk, try_catch,
    bind, modify, existsSync_dataPath, existsSync, readFileSync, when, gets,
    console_log, console_error, throw, ret.
  simpl.
  destruct qf as [| |qdata]; simpl in *;
    [ | | destruct (parse_queue env qdata) as [qes|]; simpl in * ];
    (destruct pf as [| |pdata]; simpl in *;
     [ | | destruct (parse_progress env pdata) as [pes|]; simpl in * ]);
    try discriminate;
    (eexists; split; [reflexivity|]; simpl; repeat split;
     eexists; apply in_or_app; right; left; reflexivity).
Qed.

Lemma corrupt_files_give_empty_store_witness :
  exists w',
    new_StorageService quietEnv truncatedWorld = (Returned tt, w') /\
    queue w' = [] /\
    progress w' = [] /\
    (exists e, In (Error "Error loading from disk" e) (console w')) /\
    (forall userId videoId, getProgress userId videoId w' = (Returned None, w')) /\
    (forall userId videoId, getQueueItems userId videoId w' = (Returned [], w')) /\
    getStats quietEnv w' = (Returned (mkStats 0 0 0 (dataPath quietEnv)), w').
Proof.
  apply (corrupt_files_give_empty_store quietEnv truncatedWorld
           (mkDataDir (Content "{}") (Content "{ a-b: { "))).
  - reflexivity.
  - reflexivity.
Defined.

(** ** C10: video ids with a hyphen *)



(** * Further properties of the service *)

(** ** Starting the service *)

(** X3. When the data directory is there and both files load, the service
    starts with exactly what the files hold (an absent file gives an empty
    map) and prints no error. *)
Theorem sound_files_are_loaded (env : Env) (w : World) (d : DataDir) :
  disk w = Some d ->
  deserializationFails env d = false ->
  exists w',
    new_StorageService env w = (Returned tt, w') /\
    queue w' = loaded (parse_queue env) (queueFile d) /\
    progress w' = loaded (parse_progress env) (progressFile d) /\
    filter isError (console w') = filter isError (console w).
Proof.
  intros Hd Hok. rewrite (new_StorageService_present env w d Hd).
  destruct (loadFromDisk_memory env
              (set_progress JsMap.empty (set_queue JsMap.empty w)) d Hd)
    as (w' & Hrun & _ & Hmem).
  rewrite Hok in Hmem. destruct Hmem as (Hq & Hp & Hc).
  exists w'. split; [exact Hrun|]. simpl in Hq, Hp, Hc.
  split; [|split; [|exact Hc]].
  - rewrite Hq. now destruct (queueFile d).
  - rewrite Hp. now destruct (progressFile d).
Qed.

Lemma sound_files_are_loaded_witness :
  exists w',
    new_StorageService codecEnv
      (mkWorld [] [] (Some (mkDataDir (Content "queue of pendingWorld") Absent)) 0 0 [])
      = (Returned tt, w') /\
    queue w' = loaded (parse_queue codecEnv) (Content "queue of pendingWorld") /\
    progress w' = loaded (parse_progress codecEnv) Absent /\
    filter isError (console w') = filter isError [].
Proof.
  apply (sound_files_are_loaded codecEnv
           (mkWorld [] [] (Some (mkDataDir (Content "queue of pendingWorld") Absent)) 0 0 [])
           (mkDataDir (Content "queue of pendingWorld") Absent)).
  - reflexivity.
  - reflexivity.
Defined.

(** X4. Cold start. When the two writes of [saveToDisk] succeed and the
    codec reads back what it wrote for the two maps, a service started over
    the files has the same queue and the same committed table as the one
    that saved. *)
Theorem saved_state_loads_back (env : Env) (w : World) (d : DataDir) :
  disk w = Some d ->
  writeFault env (writes w) = None ->
  writeFault env (S (writes w)) = None ->
  uniqueKeys w ->
  parse_queue env (stringify_queue env (queue w)) = Some (queue w) ->
  parse_progress env (stringify_progress env (progress w)) = Some (progress w) ->
  exists w1 w2,
    saveToDisk env w = (Returned tt, w1) /\
    new_StorageService env w1 = (Returned tt, w2) /\
    queue w2 = queue w /\
    progress w2 = progress w.
Proof.
  intros Hd Hw1 Hw2 (Hq & Hp) Hcq Hcp.
  set (d' := mkDataDir (Content (stringify_queue env (queue w)))
                       (Content (stringify_progress env (progress w)))).
  assert (disk (afterSave env w) = Some d') as Hd'.
  { unfold afterSave, saveToDisk, try_catch, bind, gets, writeFileSync,
      console_log, modify.
    simpl. rewrite Hd. simpl. rewrite Hw1. simpl. rewrite Hw2. reflexivity. }
  assert (deserializationFails env d' = false) as Hok
    by (unfold deserializationFails, d'; simpl; now rewrite Hcq, Hcp).
  exists (afterSave env w).
  destruct (loadFromDisk_memory env
              (set_progress JsMap.empty (set_queue JsMap.empty (afterSave env w)))
              d' Hd')
    as (w2 & Hrun & _ & Hmem).
  rewrite Hok in Hmem. destruct Hmem as (Hq2 & Hp2 & _).
  exists w2. split; [apply saveToDisk_returns|].
  split; [now rewrite (new_StorageService_present env _ d' Hd')|].
  unfold d' in Hq2, Hp2. simpl in Hq2, Hp2. rewrite Hcq in Hq2. rewrite Hcp in Hp2.
  rewrite Hq2, Hp2. split; now apply of_entries_unique.
Qed.

Lemma saved_state_loads_back_witness :
  exists w1 w2,
    saveToDisk codecEnv pendingWorld = (Returned tt, w1) /\
    new_StorageService codecEnv w1 = (Returned tt, w2) /\
    queue w2 = queue pendingWorld /\
    progress w2 = progress pendingWorld.
Proof.
  apply (saved_state_loads_back codecEnv pendingWorld
           (mkDataDir (Content "{}") (Content "{}"))).
  - reflexivity.
  - reflexivity.
  - reflexivity.
  - split; vm_compute; repeat constructor; simpl; intuition discriminate.
  - reflexivity.
  - reflexivity.
Defined.

(** ** Writes that fail *)

(** X5. When the write of the queue file throws, [saveToDisk] does not try
    the progress file: one write is counted, the progress file is as it
    was, the error is printed and ["Data saved"] is not. *)
Theorem failed_queue_write_skips_progress_write (env : Env) (w : World)
    (d : DataDir) (remains : file) :
  disk w = Some d ->
  writeFault env (writes w) = Some remains ->
  exists w' e,
    saveToDisk env w = (Returned tt, w') /\
    disk w' = Some (mkDataDir remains (progressFile d)) /\
    writes w' = S (writes w) /\
    console w' = console w ++ [Error "Error saving" e].
Proof.
  intros Hd Hf. exists (afterSave env w). eexists.
  split; [apply saveToDisk_returns|].
  unfold afterSave, saveToDisk, try_catch, bind, gets, writeFileSync,
    console_log, console_error, modify.
  simpl. rewrite Hd. simpl. rewrite Hf. simpl. repeat split.
Qed.

Lemma failed_queue_write_skips_progress_write_witness :
  exists w' e,
    saveToDisk brokenDiskEnv readmeWorld = (Returned tt, w') /\
    disk w' = Some (mkDataDir Absent (Content "{}")) /\
    writes w' = S (writes readmeWorld) /\
    console w' = console readmeWorld ++ [Error "Error saving" e].
Proof.
  apply (failed_queue_write_skips_progress_write brokenDiskEnv readmeWorld
           (mkDataDir (Content "{}") (Content "{}")) Absent).
  - reflexivity.
  - reflexivity.
Defined.

(** X6. When the queue file is written and the write of the progress file
    throws, the two files are left out of step: the queue file holds the
    current queue, the progress file what the failed write left; the error
    is printed. *)
Theorem failed_progress_write_leaves_new_queue_file (env : Env) (w : World)
    (d : DataDir) (remains : file) :
  disk w = Some d ->
  writeFault env (writes w) = None ->
  writeFault env (S (writes w)) = Some remains ->
  exists w' e,
    saveToDisk env w = (Returned tt, w') /\
    disk w' = Some (mkDataDir (Content (stringify_queue env (queue w))) remains) /\
    writes w' = S (S (writes w)) /\
    console w' = console w ++ [Error "Error saving" e].
Proof.
  intros Hd Hf1 Hf2. exists (afterSave env w). eexists.
  split; [apply saveToDisk_returns|].
  unfold afterSave, saveToDisk, try_catch, bind, gets, writeFileSync,
    console_log, console_error, modify.
  simpl. rewrite Hd. simpl. rewrite Hf1. simpl. rewrite Hf2. simpl.
  repeat split.
Qed.

Lemma failed_progress_write_leaves_new_queue_file_witness :
  exists w' e,
    saveToDisk secondWriteFailsEnv freshWorld = (Returned tt, w') /\
    disk w' = Some (mkDataDir (Content "{}") Unreadable) /\
    writes w' = 2 /\
    console w' = [Error "Error saving" e].
Proof.
  apply (failed_progress_write_leaves_new_queue_file secondWriteFailsEnv
           freshWorld (mkDataDir Absent Absent) Unreadable).
  - reflexivity.
  - reflexivity.
  - reflexivity.
Defined.

(** ** The data directory *)

(** X7. Without a data directory the constructor makes it, prints
    ["directory created"] and starts empty, with no error. *)
Theorem constructor_creates_directory (env : Env) (w : World) :
  disk w = None ->
  mkdirFault env = false ->
  exists w',
    new_StorageService env w = (Returned tt, w') /\
    disk w' = Some (mkDataDir Absent Absent) /\
    queue w' = [] /\
    progress w' = [] /\
    console w' = console w ++ [Log "directory created"].
Proof.
  intros Hd Hm.
  unfold new_StorageService, ensureDataDirectory, existsSync_dataPath,
    mkdirSync, loadFromDisk, try_catch, bind, modify, gets, ret, when,
    existsSync, console_log.
  simpl. rewrite Hd, Hm. simpl. eexists. repeat split.
Qed.

Lemma constructor_creates_directory_witness :
  exists w',
    new_StorageService quietEnv noDirWorld = (Returned tt, w') /\
    disk w' = Some (mkDataDir Absent Absent) /\
    queue w' = [] /\
    progress w' = [] /\
    console w' = [] ++ [Log "directory created"].
Proof.
  apply (constructor_creates_directory quietEnv noDirWorld).
  - reflexivity.
  - reflexivity.
Defined.

(** X8. When the data directory is missing and cannot be made, the
    constructor throws: [mkdirSync] is called outside every [try], nothing
    is loaded and nothing is printed. *)
Theorem constructor_throws_when_mkdir_fails (env : Env) (w : World) :
  disk w = None ->
  mkdirFault env = true ->
  exists e w',
    new_StorageService env w = (Thrown e, w') /\
    disk w' = None /\
    console w' = console w.
Proof.
  intros Hd Hm.
  unfold new_StorageService, ensureDataDirectory, existsSync_dataPath,
    mkdirSync, bind, modify, gets, ret.
  simpl. rewrite Hd, Hm. simpl. eexists. eexists. repeat split. exact Hd.
Qed.

Lemma constructor_throws_when_mkdir_fails_witness :
  exists e w',
    new_StorageService readOnlyEnv noDirWorld = (Thrown e, w') /\
    disk w' = None /\
    console w' = [].
Proof.
  apply (constructor_throws_when_mkdir_fails readOnlyEnv noDirWorld).
  - reflexivity.
  - reflexivity.
Defined.

(** ** The committed table *)

(** X9. After [setProgress] for a pair, [getProgress] for that pair returns
    the record just written, with the given seconds; every pair with
    another key reads as before and the queue is untouched. *)
Theorem setProgress_then_getProgress (env : Env) (w : World)
    (userId videoId : string) (seconds : number) :
  exists r w',
    setProgress env userId (Some videoId) seconds w = (Returned r, w') /\
    getProgress userId videoId w' = (Returned (Some r), w') /\
    pr_furthestSeconds r = seconds /\
    pr_userId r = userId /\
    pr_videoId r = Some videoId /\
    queue w' = queue w /\
    forall userId' videoId',
      key_of userId' (Some videoId') <> key_of userId (Some videoId) ->
      fst (getProgress userId' videoId' w') = fst (getProgress userId' videoId' w).
Proof.
  exists (recordAt env w userId (Some videoId) seconds).
  exists (afterSetProgress env w userId (Some videoId) seconds).
  split; [apply setProgress_returns|].
  unfold getProgress, bind, gets, ret. cbv beta iota.
  rewrite progress_afterSetProgress, get_set_same, queue_afterSetProgress.
  repeat split.
  intros u' v' Hne. cbn [fst]. now rewrite get_set_other.
Qed.

(** X10. [updateProgressIfHigher] answers [false] exactly when there is a
    record that the given seconds do not exceed, and then it changes
    nothing at all, in memory or on disk; when it answers [true] the record
    of the pair holds the given seconds. *)
Theorem updateProgressIfHigher_decides (env : Env) (w : World)
    (userId : string) (videoId : option string) (seconds : number) :
  exists b w',
    updateProgressIfHigher env userId videoId seconds w = (Returned b, w') /\
    (b = false ->
     w' = w /\
     exists current,
       JsMap.get (progress w) (key_of userId videoId) = Some current /\
       gt seconds (pr_furthestSeconds current) = false) /\
    (b = true ->
     (forall current,
        JsMap.get (progress w) (key_of userId videoId) = Some current ->
        gt seconds (pr_furthestSeconds current) = true) /\
     exists r,
       JsMap.get (progress w') (key_of userId videoId) = Some r /\
       pr_furthestSeconds r = seconds).
Proof.
  rewrite updateProgressIfHigher_returns.
  destruct (raises w userId videoId seconds) eqn:E; unfold raises in E.
  - exists true, (afterSetProgress env w userId videoId seconds).
    split; [reflexivity|]. split; [discriminate|]. intros _. split.
    + intros cur Hcur. now rewrite Hcur in E.
    + rewrite progress_afterSetProgress, get_set_same. eexists. now split.
  - exists false, w. split; [reflexivity|]. split; [|discriminate].
    intros _. split; [reflexivity|].
    destruct (JsMap.get (progress w) (key_of userId videoId)) as [cur|];
      [|discriminate].
    exists cur. now split.
Qed.

(** ** The queue *)

(** X11. [addToQueue] touches one bucket only: every other key keeps its
    bucket, a key that had a bucket keeps its place in the order of the
    queue, and a new key goes last. *)
Theorem addToQueue_keeps_other_buckets (env : Env) (w : World) (item : QueueInput) :
  let key := key_of (in_userId item) (Some (in_videoId item)) in
  exists qi w',
    addToQueue env item w = (Returned qi, w') /\
    (forall key', key' <> key -> bucket w' key' = bucket w key') /\
    (In key (JsMap.keys (queue w)) ->
     JsMap.keys (queue w') = JsMap.keys (queue w)) /\
    (~ In key (JsMap.keys (queue w)) ->
     JsMap.keys (queue w') = JsMap.keys (queue w) ++ [key]).
Proof.
  intro key. exists (itemAt env w item), (afterAdd env w item).
  split; [apply addToQueue_returns|]. rewrite queue_afterAdd. fold key.
  split; [|split].
  - intros key' Hne. unfold bucket. rewrite queue_afterAdd. fold key.
    now rewrite get_set_other.
  - intro Hin. now apply keys_set_present.
  - intro Hout. rewrite (set_absent _ _ _ Hout). unfold JsMap.keys.
    now rewrite map_app.
Qed.

(** X12. After [addToQueue], [getStats] counts one pending sample more and
    as many committed records as before; it counts one pending key more
    when the pair had no bucket and as many as before when it had one. *)
Theorem addToQueue_counts (env : Env) (w : World) (item : QueueInput) :
  let key := key_of (in_userId item) (Some (in_videoId item)) in
  exists qi w' s s',
    getStats env w = (Returned s, w) /\
    addToQueue env item w = (Returned qi, w') /\
    getStats env w' = (Returned s', w') /\
    queueItems s' = S (queueItems s) /\
    progressRecords s' = progressRecords s /\
    queueSize s' =
      match JsMap.get (queue w) key with
      | Some _ => queueSize s
      | None => S (queueSize s)
      end.
Proof.
  intro key. exists (itemAt env w item), (afterAdd env w item).
  do 2 eexists.
  split; [reflexivity|]. split; [apply addToQueue_returns|].
  split; [reflexivity|]. cbn [queueItems progressRecords queueSize].
  rewrite queue_afterAdd, progress_afterAdd. fold key.
  split; [|split; [reflexivity|apply size_set]].
  unfold bucket. apply pendingSamples_set.
Qed.

(** X13. In a queue with each key once, [clearQueueForKey] empties the
    bucket of the pair, keeps every other bucket and does not touch the
    committed table: the samples are dropped, not merged. *)
Theorem clearQueueForKey_drops_one_bucket (env : Env) (w : World)
    (userId videoId : string) :
  NoDup (JsMap.keys (queue w)) ->
  let key := key_of userId (Some videoId) in
  exists w',
    clearQueueForKey env userId videoId w = (Returned tt, w') /\
    getQueueItems userId videoId w' = (Returned [], w') /\
    (forall key', key' <> key -> bucket w' key' = bucket w key') /\
    progress w' = progress w.
Proof.
  intros Hnd key. rewrite clearQueueForKey_returns. fold key.
  eexists. split; [reflexivity|].
  unfold getQueueItems, bind, gets, ret, bucket. cbv beta iota.
  rewrite queue_afterSave, progress_afterSave. simpl. fold key.
  rewrite (get_delete_same _ _ Hnd).
  split; [reflexivity|]. split; [|reflexivity].
  intros key' Hne. now rewrite get_delete_other.
Qed.

Lemma clearQueueForKey_drops_one_bucket_witness :
  exists w',
    clearQueueForKey quietEnv "u" "v" pendingWorld = (Returned tt, w') /\
    getQueueItems "u" "v" w' = (Returned [], w') /\
    (forall key', key' <> key_of "u" (Some "v") ->
                  bucket w' key' = bucket pendingWorld key') /\
    progress w' = progress pendingWorld.
Proof.
  apply (clearQueueForKey_drops_one_bucket quietEnv pendingWorld "u" "v").
  vm_compute. repeat constructor. simpl. intuition discriminate.
Defined.

(** ** The merge *)

(** X14. When every bucket can be spread into one call and every key of
    the queue has exactly one hyphen (the ids have none), the merge returns
    and has followed the rule on every key with pending samples: with no
    record, or with a record that the greatest sample exceeds, the key gets
    a record holding the greatest sample; otherwise its record is kept as
    it is. *)
Theorem merge_follows_rule_on_plain_keys (env : Env) (w : World)
    (key : string) (item : QueueItem) (items : list QueueItem) :
  withinLimit env (queue w) = true ->
  NoDup (JsMap.keys (queue w)) ->
  Forall (fun k => hyphens k = 1) (JsMap.keys (queue w)) ->
  In (key, item :: items) (queue w) ->
  exists r w',
    processCronJob env w = (Returned r, w') /\
    mergedRecord (JsMap.get (progress w) key) (item :: items)
      (JsMap.get (progress w') key).
Proof.
  intros Hfit Hnd Hone Hin.
  pose proof (merge_rule_on_plain_keys env w key item items Hnd Hone Hin) as H.
  rewrite (processCronJob_returns env w Hfit). eauto.
Qed.

Lemma merge_follows_rule_on_plain_keys_witness :
  exists r w',
    processCronJob quietEnv pendingWorld = (Returned r, w') /\
    mergedRecord (JsMap.get (progress pendingWorld) "u-v")
      (bucket pendingWorld "u-v")
      (JsMap.get (progress w') "u-v").
Proof.
  apply (merge_follows_rule_on_plain_keys quietEnv pendingWorld "u-v"
           (sampleOf (Finite 5))).
  - reflexivity.
  - vm_compute. repeat constructor. simpl. intuition discriminate.
  - vm_compute. repeat constructor.
  - vm_compute. left. reflexivity.
Defined.

(** X15. Under the same conditions, after merging a bucket without [NaN] the
    key has a record and no sample of the bucket exceeds its
    [furthestSeconds]. *)
Theorem merged_record_covers_samples (env : Env) (w : World)
    (key : string) (item : QueueItem) (items : list QueueItem) :
  withinLimit env (queue w) = true ->
  NoDup (JsMap.keys (queue w)) ->
  Forall (fun k => hyphens k = 1) (JsMap.keys (queue w)) ->
  In (key, item :: items) (queue w) ->
  nanFree (map qi_progressSeconds (item :: items)) ->
  exists res w' r,
    processCronJob env w = (Returned res, w') /\
    JsMap.get (progress w') key = Some r /\
    forall sample,
      In sample (item :: items) ->
      gt (qi_progressSeconds sample) (pr_furthestSeconds r) = false.
Proof.
  intros Hfit Hnd Hone Hin Hfree.
  pose proof (merge_rule_on_plain_keys env w key item items Hnd Hone Hin) as H.
  rewrite (processCronJob_returns env w Hfit).
  pose proof (Math_max_greatest (qi_progressSeconds item)
                (map qi_progressSeconds items) Hfree) as HM.
  cbv zeta in HM.
  change (qi_progressSeconds item :: map qi_progressSeconds items)
    with (map qi_progressSeconds (item :: items)) in HM.
  destruct HM as (Hm & _ & Hall).
  assert (forall sample, In sample (item :: items) ->
            gt (qi_progressSeconds sample)
               (Math_max (map qi_progressSeconds (item :: items))) = false)
    as Hmax by (intros s Hs; apply Hall; now apply in_map).
  unfold mergedRecord in H.
  destruct (JsMap.get (progress w) key) as [cur|].
  - destruct (gt _ (pr_furthestSeconds cur)) eqn:E.
    + destruct H as (r & Hr & Hf). do 3 eexists.
      split; [reflexivity|]. split; [exact Hr|]. rewrite Hf. exact Hmax.
    + do 3 eexists. split; [reflexivity|]. split; [exact H|].
      intros s Hs. eapply not_gt_trans; [exact Hm|now apply Hmax|exact E].
  - destruct H as (r & Hr & Hf). do 3 eexists.
    split; [reflexivity|]. split; [exact Hr|]. rewrite Hf. exact Hmax.
Qed.

Lemma merged_record_covers_samples_witness :
  exists res w' r,
    processCronJob quietEnv pendingWorld = (Returned res, w') /\
    JsMap.get (progress w') "u-v" = Some r /\
    forall sample,
      In sample (bucket pendingWorld "u-v") ->
      gt (qi_progressSeconds sample) (pr_furthestSeconds r) = false.
Proof.
  apply (merged_record_covers_samples quietEnv pendingWorld "u-v"
           (sampleOf (Finite 5))).
  - reflexivity.
  - vm_compute. repeat constructor. simpl. intuition discriminate.
  - vm_compute. repeat constructor.
  - vm_compute. left. reflexivity.
  - vm_compute. intuition discriminate.
Defined.

(** X16. A merge changes the committed table only under the keys it splits
    off the keys of non-empty buckets: every other key reads after the
    merge as before, whether the merge returns or throws. *)
Theorem merge_leaves_other_keys (env : Env) (w : World) (k : string) :
  (forall key item items,
     In (key, item :: items) (queue w) -> committedKey key <> k) ->
  exists o w',
    processCronJob env w = (o, w') /\
    JsMap.get (progress w') k = JsMap.get (progress w) k.
Proof.
  intro H. rewrite processCronJob_runs. do 2 eexists.
  split; [reflexivity|].
  rewrite progress_afterMerge. apply progress_loop_untouched.
  intros key item items Hin. apply (H key item items).
  eapply turns_incl. exact Hin.
Qed.

Lemma merge_leaves_other_keys_witness :
  exists o w',
    processCronJob quietEnv readmeWorld = (o, w') /\
    JsMap.get (progress w') "test-user-1-yt-abc123"
      = JsMap.get (progress readmeWorld) "test-user-1-yt-abc123".
Proof.
  apply (merge_leaves_other_keys quietEnv readmeWorld).
  intros key item items Hin.
  vm_compute in Hin. destruct Hin as [Heq|[]].
  injection Heq as <- _ _. vm_compute. discriminate.
Defined.

(** X17. The count of raised keys that a merge returns is at most the
    number of non-empty buckets, which is at most the [queueSize] that
    [getStats] reported before the merge. *)
Theorem updated_is_bounded (env : Env) (w w' : World) (r : CronResult) :
  processCronJob env w = (Returned r, w') ->
  exists s,
    getStats env w = (Returned s, w) /\
    updated r <= nonEmptyBuckets (queue w) /\
    nonEmptyBuckets (queue w) <= queueSize s.
Proof.
  rewrite processCronJob_runs. unfold mergeOutcome.
  destruct (withinLimit env (queue w)); [|discriminate].
  intro H. injection H as <- _. eexists.
  split; [reflexivity|]. simpl. split.
  - apply (loopCount_bound env (queue w) w 0).
  - apply nonEmptyBuckets_size.
Qed.

Lemma updated_is_bounded_witness :
  exists s,
    getStats quietEnv pendingWorld = (Returned s, pendingWorld) /\
    updated (mkCronResult 1 0) <= nonEmptyBuckets (queue pendingWorld) /\
    nonEmptyBuckets (queue pendingWorld) <= queueSize s.
Proof.
  apply (updated_is_bounded quietEnv pendingWorld
           (snd (processCronJob quietEnv pendingWorld)) (mkCronResult 1 0)).
  vm_compute. reflexivity.
Defined.

(** ** Samples that are not numbers *)

(** X18. One [NaN] sample makes the whole bucket count for nothing: when
    the pair that the merge derives from the key has a record, the turn of
    the loop for that bucket changes nothing, whatever the other samples
    are; it returns the count of raised keys as it was when the bucket can
    be spread into one call. *)
Theorem NaN_sample_voids_bucket (env : Env) (w : World) (upd : nat)
    (key : string) (items : list QueueItem) (current : ProgressRecord) :
  In NaN (map qi_progressSeconds items) ->
  JsMap.get (progress w) (committedKey key) = Some current ->
  Math_max (map qi_progressSeconds items) = NaN /\
  snd (cronStep env upd (key, items) w) = w /\
  (fits env items = true ->
   cronStep env upd (key, items) w = (Returned upd, w)).
Proof.
  intros Hnan Hcur.
  assert (Math_max (map qi_progressSeconds items) = NaN) as Hmax
    by now apply Math_max_from_NaN.
  split; [exact Hmax|].
  rewrite cronStep_runs. unfold stepCount, stepWorld. cbn [fst snd].
  destruct items as [|i items]; [now destruct (fits env _)|].
  rewrite Hmax. unfold raises. unfold committedKey in Hcur. rewrite Hcur.
  simpl. destruct (fits env (i :: items)); split; try reflexivity.
  discriminate.
Qed.

Lemma NaN_sample_voids_bucket_witness :
  let items :=
    [mkQueueItem "1" "v" "u" (Finite 99) "t"; mkQueueItem "2" "v" "u" NaN "t"] in
  Math_max (map qi_progressSeconds items) = NaN /\
  snd (cronStep quietEnv 0 ("u-v", items) committedWorld) = committedWorld /\
  (fits quietEnv items = true ->
   cronStep quietEnv 0 ("u-v", items) committedWorld = (Returned 0, committedWorld)).
Proof.
  apply (NaN_sample_voids_bucket quietEnv committedWorld 0 "u-v"
           [mkQueueItem "1" "v" "u" (Finite 99) "t"; mkQueueItem "2" "v" "u" NaN "t"]
           (mkProgressRecord (Some "v") "u" (Finite 10) "2024-01-01T00:00:00.000Z")).
  - right. left. reflexivity.
  - reflexivity.
Defined.

(** X19. A record whose [furthestSeconds] is [NaN] is never replaced by
    enqueueing, merging or [updateProgressIfHigher]: no number exceeds
    [NaN], so the record stays exactly as it is until [setProgress] or
    [reset] is called, whether the calls return or a merge throws. *)
Theorem NaN_record_is_stuck (env : Env) (cs : list call) (w : World)
    (k : string) (r : ProgressRecord) :
  Forall (fun c => overwrites c = false) cs ->
  JsMap.get (progress w) k = Some r ->
  pr_furthestSeconds r = NaN ->
  exists o w',
    performAll env cs w = (o, w') /\
    JsMap.get (progress w') k = Some r.
Proof.
  intros Hcs Hr Hnan.
  pose proof (performAll_grows env cs Hcs w) as Hgrow.
  destruct (performAll env cs w) as [o w'] eqn:Hrun. simpl in Hgrow.
  destruct (Hgrow k r Hr) as (r' & Hr' & [->|Hgt]).
  - eauto.
  - rewrite Hnan in Hgt. destruct (pr_furthestSeconds r'); discriminate.
Qed.

Lemma NaN_record_is_stuck_witness :
  exists o w',
    performAll quietEnv
      [AddToQueue (mkQueueInput "v" "u" (Finite 100)); ProcessCronJob;
       UpdateProgressIfHigher "u" (Some "v") PosInfinity]
      nanWorld = (o, w') /\
    JsMap.get (progress w') "u-v"
      = Some (mkProgressRecord (Some "v") "u" NaN "2024-01-01T00:00:00.000Z").
Proof.
  apply (NaN_record_is_stuck quietEnv _ nanWorld "u-v").
  - repeat constructor.
  - reflexivity.
  - reflexivity.
Defined.

(** ** Keys and pairs *)

(** X20. Among pairs whose user id has no hyphen the key is injective:
    two such pairs with the same key are the same pair, whatever the video
    ids contain. *)
Theorem key_of_injective_for_plain_users (userId1 userId2 videoId1 videoId2 : string) :
  hasHyphen userId1 = false ->
  hasHyphen userId2 = false ->
  key_of userId1 (Some videoId1) = key_of userId2 (Some videoId2) ->
  userId1 = userId2 /\ videoId1 = videoId2.
Proof.
  intros H1 H2. apply key_of_inj_plain_user; now apply hasHyphen_false_hyphens.
Qed.

Lemma key_of_injective_for_plain_users_witness :
  "user1" = "user1" /\ "yt-abc123" = "yt-abc123".
Proof.
  apply (key_of_injective_for_plain_users "user1" "user1" "yt-abc123" "yt-abc123").
  - reflexivity.
  - reflexivity.
  - reflexivity.
Defined.

(** X21. A pair whose two ids have no hyphen is what [processCronJob] gets
    back when it splits the key that [addToQueue] made for it. *)
Theorem plain_pair_survives_split (userId videoId : string) :
  hasHyphen userId = false ->
  hasHyphen videoId = false ->
  destructure (key_of userId (Some videoId)) = (userId, Some videoId).
Proof.
  intros Hu Hv. apply destructure_key_of; now apply hasHyphen_false_hyphens.
Qed.

Lemma plain_pair_survives_split_witness :
  destructure (key_of "user1" (Some "video7")) = ("user1", Some "video7").
Proof.
  apply (plain_pair_survives_split "user1" "video7").
  - reflexivity.
  - reflexivity.
Defined.

(** ** The routes *)

(** X22. Through the routes alone (queue, run-cron, furthest, stats, reset)
    a pair whose video id has a hyphen never gets progress: when it has no
    record, then after any sequence of these calls, run to its end or
    stopped by a merge that throws, [GET /api/progress/furthest] still
    replies 0 seconds and no date. *)
Theorem routes_never_commit_hyphenated_video (env : Env) (cs : list call)
    (w : World) (userId videoId : string) :
  Forall (fun c => routed c = true) cs ->
  hasHyphen videoId = true ->
  JsMap.get (progress w) (key_of userId (Some videoId)) = None ->
  exists o w',
    performAll env cs w = (o, w') /\
    get_progress_furthest userId videoId w'
      = (Returned (mkFurthestReply videoId userId (Finite 0) None), w').
Proof.
  intros Hcs Hv Hnone. apply hasHyphen_hyphens in Hv.
  assert (hyphens (key_of userId (Some videoId)) <> 1) as Hk
    by (rewrite hyphens_key_of; simpl; lia).
  pose proof (performAll_routed_elsewhere env cs _ Hcs Hk w Hnone) as Hstill.
  destruct (performAll env cs w) as [o w'] eqn:Hrun. simpl in Hstill.
  exists o, w'. split; [reflexivity|].
  unfold get_progress_furthest, getProgress, bind, gets, ret. cbv beta iota.
  now rewrite Hstill.
Qed.

Lemma routes_never_commit_hyphenated_video_witness :
  exists o w',
    performAll quietEnv
      [AddToQueue readmeSample; ProcessCronJob; GetStats;
       AddToQueue readmeSample; AddToQueue readmeSample; ProcessCronJob;
       Reset; AddToQueue readmeSample; ProcessCronJob]
      freshWorld = (o, w') /\
    get_progress_furthest "test-user-1" "yt-abc123" w'
      = (Returned (mkFurthestReply "yt-abc123" "test-user-1" (Finite 0) None), w').
Proof.
  apply (routes_never_commit_hyphenated_video quietEnv _ freshWorld
           "test-user-1" "yt-abc123").
  - repeat constructor.
  - reflexivity.
  - reflexivity.
Defined.

(** X23. [GET /api/progress/furthest] changes nothing, echoes the two ids
    and never replies [NaN]: it replies 0 seconds for a pair without a
    record and for a record holding zero or [NaN] (the numbers neither
    above nor below zero), and the committed seconds for a record holding
    any other number. *)
Theorem furthest_reply_is_a_number (w : World) (userId videoId : string) :
  exists reply,
    get_progress_furthest userId videoId w = (Returned reply, w) /\
    reply_userId reply = userId /\
    reply_videoId reply = videoId /\
    reply_furthestSeconds reply <> NaN /\
    match JsMap.get (progress w) (key_of userId (Some videoId)) with
    | None =>
        reply_furthestSeconds reply = Finite 0 /\ reply_lastUpdated reply = None
    | Some r =>
        (gt (pr_furthestSeconds r) (Finite 0) = true \/
         gt (Finite 0) (pr_furthestSeconds r) = true ->
         reply_furthestSeconds reply = pr_furthestSeconds r) /\
        (gt (pr_furthestSeconds r) (Finite 0) = false ->
         gt (Finite 0) (pr_furthestSeconds r) = false ->
         reply_furthestSeconds reply = Finite 0)
    end.
Proof.
  unfold get_progress_furthest, getProgress, bind, gets, ret. cbv beta iota.
  eexists. split; [reflexivity|]. cbn.
  destruct (JsMap.get (progress w) (key_of userId (Some videoId))) as [r|].
  - repeat split; try apply or_zero_cases.
    destruct (pr_furthestSeconds r); simpl; try discriminate.
    destruct (Qeq_bool q 0); discriminate.
  - repeat split. discriminate.
Qed.

(** X24. After [POST /api/reset], whether or not the disk takes the writes,
    the route replies ok, [GET /api/stats] counts nothing and
    [GET /api/progress/furthest] replies 0 seconds for every pair. *)
Theorem reset_route_empties_store (env : Env) (w : World) :
  exists w',
    post_reset env w = (Returned true, w') /\
    get_stats env w' = (Returned (mkStats 0 0 0 (dataPath env)), w') /\
    forall userId videoId,
      get_progress_furthest userId videoId w'
        = (Returned (mkFurthestReply videoId userId (Finite 0) None), w').
Proof.
  exists (afterReset env w). split.
  - unfold post_reset. erewrite bind_returned by apply reset_returns.
    reflexivity.
  - unfold get_stats, getStats, get_progress_furthest, getProgress, bind,
      gets, ret.
    cbv beta iota. unfold afterReset. simpl.
    rewrite queue_afterSave, progress_afterSave. simpl. split; reflexivity.
Qed.

(** X25. End to end, for ids without hyphens. In a store whose queue keys
    have one hyphen each and whose engine has room for one more sample,
    take a pair without pending samples and without a record: a
    [POST /api/progress/queue] with a positive number that the framework
    takes as a number passes the schema and is queued, and after
    [POST /api/progress/run-cron], [GET /api/progress/furthest] replies
    that number for the pair. *)
Theorem plain_pair_end_to_end (env : Env) (w : World)
    (userId videoId : string) (seconds : number) :
  roomFor env w 1 ->
  NoDup (JsMap.keys (queue w)) ->
  Forall (fun k => hyphens k = 1) (JsMap.keys (queue w)) ->
  hasHyphen userId = false ->
  hasHyphen videoId = false ->
  JsMap.get (queue w) (key_of userId (Some videoId)) = None ->
  JsMap.get (progress w) (key_of userId (Some videoId)) = None ->
  schemaNumber env seconds = true ->
  gt seconds (Finite 0) = true ->
  exists queued w1 counts w2 reply,
    post_progress_queue env (mkQueueInput videoId userId seconds) w
      = (Returned (Replied queued), w1) /\
    queue_ok queued = true /\
    post_progress_run_cron env w1 = (Returned counts, w2) /\
    get_progress_furthest userId videoId w2 = (Returned reply, w2) /\
    reply_furthestSeconds reply = seconds.
Proof.
  intros Hroom Hnd Hone Hu Hv Hq Hp Hnum Hpos.
  apply hasHyphen_false_hyphens in Hu, Hv.
  set (item := mkQueueInput videoId userId seconds).
  set (key := key_of userId (Some videoId)) in *.
  set (w1 := afterAdd env w item).
  assert (queue w1 = queue w ++ [(key, [itemAt env w item])]) as Hq1.
  { unfold w1. rewrite queue_afterAdd. simpl. fold key. unfold bucket.
    rewrite Hq. simpl. apply set_absent. now apply get_None_keys. }
  assert (withinLimit env (queue w1) = true) as Hfit.
  { apply (withinLimit_room env w1 0). unfold roomFor in *.
    unfold w1. rewrite queue_afterAdd. unfold bucket.
    rewrite pendingSamples_set. lia. }
  assert (NoDup (JsMap.keys (queue w1))) as Hnd1.
  { unfold w1. rewrite queue_afterAdd. now apply NoDup_keys_set. }
  assert (Forall (fun k => hyphens k = 1) (JsMap.keys (queue w1))) as Hone1.
  { rewrite Hq1. unfold JsMap.keys. rewrite map_app. apply Forall_app.
    split; [exact Hone|]. repeat constructor. simpl. unfold key.
    rewrite hyphens_key_of. simpl. lia. }
  assert (In (key, [itemAt env w item]) (queue w1)) as Hin
    by (rewrite Hq1; apply in_or_app; right; now left).
  pose proof (merge_rule_on_plain_keys env w1 key _ _ Hnd1 Hone1 Hin) as Hrule.
  unfold mergedRecord in Hrule. unfold w1 in Hrule at 1.
  rewrite progress_afterAdd, Hp in Hrule.
  destruct Hrule as (r & Hr & Hf).
  assert (pr_furthestSeconds r = seconds) as Hsec
    by (rewrite Hf; simpl map; apply Math_max_single).
  exists (mkQueueReply true (itemAt env w item)), w1.
  exists (mkCronResult (loopCount env w1 0 (queue w1)) 0), (afterCron env w1).
  eexists.
  split.
  { unfold post_progress_queue, schema_progressSeconds. simpl.
    rewrite Hnum, (gt_zero_nonneg _ Hpos). simpl.
    erewrite bind_returned by apply addToQueue_returns. reflexivity. }
  split; [reflexivity|]. split.
  { unfold post_progress_run_cron.
    erewrite bind_returned by (apply processCronJob_returns; exact Hfit).
    reflexivity. }
  unfold get_progress_furthest, getProgress, bind, gets, ret. cbv beta iota.
  fold key. rewrite Hr. split; [reflexivity|]. cbn. rewrite Hsec.
  apply or_zero_cases. now left.
Qed.

Lemma plain_pair_end_to_end_witness :
  exists queued w1 counts w2 reply,
    post_progress_queue quietEnv (mkQueueInput "video7" "user1" (Finite 42)) pendingWorld
      = (Returned (Replied queued), w1) /\
    queue_ok queued = true /\
    post_progress_run_cron quietEnv w1 = (Returned counts, w2) /\
    get_progress_furthest "user1" "video7" w2 = (Returned reply, w2) /\
    reply_furthestSeconds reply = Finite 42.
Proof.
  apply (plain_pair_end_to_end quietEnv pendingWorld "user1" "video7" (Finite 42)).
  - unfold roomFor. vm_compute. discriminate.
  - vm_compute. repeat constructor. simpl. intuition discriminate.
  - vm_compute. repeat constructor.
  - reflexivity.
  - reflexivity.
  - reflexivity.
  - reflexivity.
  - reflexivity.
  - reflexivity.
Defined.
